(** * LiteFS store: a shallow embedding of [store.go]

    The store owns the node identity, the map of databases, the set of
    subscribers and the primary channel.  Go pointers are modelled as keys
    into heaps ([gmap]), channels that are only ever closed as a flag,
    [error] values as [option error] (with [None] for [nil]), and every call
    that leaves the process (the operating system, the replication stream,
    the lease) as an outcome supplied by an environment record. *)

From Stdlib Require Import ZArith Lia Ascii String.
From stdpp Require Import base option list sorting gmap sets strings pretty.

Open Scope Z_scope.

Set Warnings "-clear-no-such-hyp".

(** ** Machine integers *)

(** [uint64] arithmetic wraps modulo 2^64. *)
Definition wrap64 (z : Z) : Z := z mod 2 ^ 64.

(** [time.Duration] is an [int64] count of nanoseconds: two's complement. *)
Definition wrap_int64 (z : Z) : Z := (z + 2 ^ 63) mod 2 ^ 64 - 2 ^ 63.

Definition maxDuration : Z := 2 ^ 63 - 1.
Definition Second : Z := 1000000000.
Definition Minute : Z := 60 * Second.

(** Default store settings. *)
Definition DefaultReconnectDelay : Z := 1 * Second.
Definition DefaultDemoteDelay : Z := 10 * Second.
Definition DefaultRetention : Z := 10 * Minute.
Definition DefaultRetentionMonitorInterval : Z := 1 * Minute.
Definition DefaultHaltAcquireTimeout : Z := 5 * Second.
Definition DefaultHaltLockTTL : Z := 30 * Second.
Definition DefaultHaltLockMonitorInterval : Z := 5 * Second.

(** ** Positions, headers and errors *)

(** Transactional position of a database. *)
Record Pos := mkPos { TXID : Z; PostApplyChecksum : Z }.

#[global] Instance Pos_eq_dec : EqDecision Pos.
Proof. solve_decision. Defined.

(** Modelled from the spec: the LTX header comes from the ltx codec, which
    is outside the repository.  Per the spec it carries [MinTXID],
    [MaxTXID], [PreApplyChecksum], [NodeID] and [IsSnapshot]. *)
Record Header := mkHeader {
  MinTXID : Z;
  MaxTXID : Z;
  PreApplyChecksum : Z;
  NodeID : Z;
  IsSnapshot : bool
}.

(** The sentinel errors of the package, the errors handed back by the
    environment, and the two shapes [fmt.Errorf] builds in this file. *)
Inductive error : Type :=
  | ErrStoreClosed
  | ErrNoPrimary
  | ErrPrimaryExists
  | ErrLeaseExpired
  | ErrDatabaseExists
  | ErrDatabaseNotFound
  | ErrExternal (msg : string)
  | ErrPositionMismatch (name : string) (pos expected : Pos)
  | ErrorfNil (msg : string)
  | Errorf (msg : string) (cause : error).

(** [fmt.Errorf(msg + ": %w", e)]: the result is a non-nil error even when
    [e] is nil. *)
Definition wrapf (msg : string) (e : option error) : error :=
  match e with
  | Some c => Errorf msg c
  | None => ErrorfNil msg
  end.

(** [err == ErrLeaseExpired] and [err == ErrDatabaseNotFound] compare with
    the sentinel itself; a wrapped sentinel is a different value. *)
Definition is_ErrLeaseExpired (e : error) : bool :=
  match e with ErrLeaseExpired => true | _ => false end.

Definition is_ErrDatabaseNotFound (e : error) : bool :=
  match e with ErrDatabaseNotFound => true | _ => false end.

(** ** Subscriber *)

(** [notifyCh] is [make(chan struct{}, 1)]: only the number of queued
    values matters.  [dirtySet] is the set of dirty database names. *)
Record Subscriber := mkSubscriber {
  notifyCh : nat;
  dirtySet : gset string
}.

Definition newSubscriber : Subscriber :=
  {| notifyCh := 0; dirtySet := ∅ |}.

(** [select { case ch <- v: default: }] on a channel of capacity [cap]
    holding [n] values. *)
Definition try_send (cap n : nat) : nat :=
  if decide (n < cap)%nat then S n else n.

(** [<-ch] on a buffered channel when a value is queued. *)
Definition try_recv (n : nat) : option nat :=
  match n with O => None | S m => Some m end.

Definition Subscriber_MarkDirty (name : string) (s : Subscriber) : Subscriber :=
  {| notifyCh := try_send 1 (notifyCh s);
     dirtySet := {[name]} ∪ dirtySet s |}.

(** Returns the current set and installs a fresh empty one. *)
Definition Subscriber_DirtySet (s : Subscriber) : gset string * Subscriber :=
  (dirtySet s, {| notifyCh := notifyCh s; dirtySet := ∅ |}).

(** ** Databases and their LTX directory *)

(** The remotely-held HALT lock of a replica. *)
Record HaltLock := mkHaltLock { HaltLock_ID : Z; ExpiresAt : Z }.

(** What an LTX file on disk holds: its header and, from its trailer, the
    checksum of the database after the file is applied. *)
Record LTXData := mkLTXData { ltx_header : Header; ltx_post_apply_checksum : Z }.

(** A directory entry: a sub-directory, or a regular file whose content is
    either a complete LTX file or something else (empty, partial). *)
Inductive Dirent : Type :=
  | EntDir
  | EntFile (content : option LTXData).

Definition Dirent_IsDir (e : Dirent) : bool :=
  match e with EntDir => true | EntFile _ => false end.

(** The part of [*DB] the store relies on.  [db_ltx] is the listing of the
    database's LTX directory on disk. *)
Record DB := mkDB {
  db_name : string;
  db_path : string;
  db_pos : Pos;
  db_remoteHaltLock : option HaltLock;
  db_ltx : gmap string Dirent
}.

Definition set_db_pos (p : Pos) (db : DB) : DB :=
  {| db_name := db_name db; db_path := db_path db; db_pos := p;
     db_remoteHaltLock := db_remoteHaltLock db; db_ltx := db_ltx db |}.

Definition set_db_remoteHaltLock (h : option HaltLock) (db : DB) : DB :=
  {| db_name := db_name db; db_path := db_path db; db_pos := db_pos db;
     db_remoteHaltLock := h; db_ltx := db_ltx db |}.

Definition set_db_ltx (d : gmap string Dirent) (db : DB) : DB :=
  {| db_name := db_name db; db_path := db_path db; db_pos := db_pos db;
     db_remoteHaltLock := db_remoteHaltLock db; db_ltx := d |}.

(** Modelled from the spec: [NewDB] followed by [DB.Open] (db.go is not
    among the sources) on a directory that was just created: the position
    is the zero value, no HALT lock is held and the LTX directory is
    empty. *)
Definition NewDB (name path : string) : DB :=
  {| db_name := name; db_path := path; db_pos := mkPos 0 0;
     db_remoteHaltLock := None; db_ltx := ∅ |}.

(** Modelled from the spec: names of LTX files are [<MinTXID>-<MaxTXID>.ltx]
    with both TXIDs in lowercase hex, zero-padded to 16 digits
    ([DB.LTXPath] and the ltx codec are not among the sources). *)
Definition hex_digit (z : Z) : ascii :=
  if decide (z < 10) then ascii_of_N (Z.to_N (48 + z))
  else ascii_of_N (Z.to_N (87 + z)).

Fixpoint hex_fixed (digits : nat) (z : Z) : string :=
  match digits with
  | O => EmptyString
  | S d => hex_fixed d (z / 16) +:+ String (hex_digit (z mod 16)) EmptyString
  end.

Definition FormatTXID (z : Z) : string := hex_fixed 16 z.

Definition FormatFilename (minTXID maxTXID : Z) : string :=
  FormatTXID minTXID +:+ "-" +:+ FormatTXID maxTXID +:+ ".ltx".

(** [fmt.Sprintf("%s.%d.tmp", path, rand.Int())], as a name inside the LTX
    directory. *)
Definition tmpName (file : string) (rnd : Z) : string :=
  file +:+ "." +:+ pretty rnd +:+ ".tmp".

(** ** The store *)

(** The fields of [Store] read or written by the functions below, with the
    heaps they point into: [chans] maps a channel to whether it is closed,
    [ctxs] maps a context to its [Err()], [subs] holds the subscriber
    objects. *)
Record Store := mkStore {
  path : string;
  id : Z;
  dbs : gmap string DB;
  subscribers : gset nat;
  isPrimary : bool;
  primaryCh : nat;
  candidate : bool;
  readyCh : nat;
  demoteCh : nat;
  DemoteDelay : Z;
  Retention : Z;
  chans : gmap nat bool;
  ctxs : gmap nat (option error);
  subs : gmap nat Subscriber
}.

(** The node ID is assigned by [initID] when the store is opened. *)
Definition set_id (i : Z) (s : Store) : Store :=
  mkStore (path s) i (dbs s) (subscribers s) (isPrimary s) (primaryCh s)
    (candidate s) (readyCh s) (demoteCh s) (DemoteDelay s) (Retention s)
    (chans s) (ctxs s) (subs s).

Definition set_dbs (m : gmap string DB) (s : Store) : Store :=
  mkStore (path s) (id s) m (subscribers s) (isPrimary s) (primaryCh s)
    (candidate s) (readyCh s) (demoteCh s) (DemoteDelay s) (Retention s)
    (chans s) (ctxs s) (subs s).

Definition set_subscribers (x : gset nat) (s : Store) : Store :=
  mkStore (path s) (id s) (dbs s) x (isPrimary s) (primaryCh s)
    (candidate s) (readyCh s) (demoteCh s) (DemoteDelay s) (Retention s)
    (chans s) (ctxs s) (subs s).

Definition set_isPrimary (v : bool) (s : Store) : Store :=
  mkStore (path s) (id s) (dbs s) (subscribers s) v (primaryCh s)
    (candidate s) (readyCh s) (demoteCh s) (DemoteDelay s) (Retention s)
    (chans s) (ctxs s) (subs s).

Definition set_primaryCh (c : nat) (s : Store) : Store :=
  mkStore (path s) (id s) (dbs s) (subscribers s) (isPrimary s) c
    (candidate s) (readyCh s) (demoteCh s) (DemoteDelay s) (Retention s)
    (chans s) (ctxs s) (subs s).

Definition set_demoteCh (c : nat) (s : Store) : Store :=
  mkStore (path s) (id s) (dbs s) (subscribers s) (isPrimary s) (primaryCh s)
    (candidate s) (readyCh s) c (DemoteDelay s) (Retention s)
    (chans s) (ctxs s) (subs s).

Definition set_chans (h : gmap nat bool) (s : Store) : Store :=
  mkStore (path s) (id s) (dbs s) (subscribers s) (isPrimary s) (primaryCh s)
    (candidate s) (readyCh s) (demoteCh s) (DemoteDelay s) (Retention s)
    h (ctxs s) (subs s).

Definition set_ctxs (h : gmap nat (option error)) (s : Store) : Store :=
  mkStore (path s) (id s) (dbs s) (subscribers s) (isPrimary s) (primaryCh s)
    (candidate s) (readyCh s) (demoteCh s) (DemoteDelay s) (Retention s)
    (chans s) h (subs s).

Definition set_subs (h : gmap nat Subscriber) (s : Store) : Store :=
  mkStore (path s) (id s) (dbs s) (subscribers s) (isPrimary s) (primaryCh s)
    (candidate s) (readyCh s) (demoteCh s) (DemoteDelay s) (Retention s)
    (chans s) (ctxs s) h.

(** *** Channels used as close-only signals *)

(** [make(chan struct{})]: a new, open channel. *)
Definition make_chan (h : gmap nat bool) : nat * gmap nat bool :=
  let c := fresh (dom h) in (c, <[c := false]> h).

(** [close(c)]; closing a closed (or nil) channel panics: [None]. *)
Definition close_chan (c : nat) (h : gmap nat bool) : option (gmap nat bool) :=
  match h !! c with
  | Some false => Some (<[c := true]> h)
  | _ => None
  end.

(** Whether a receive from [c] is ready, that is, [c] is closed. *)
Definition chan_closed (h : gmap nat bool) (c : nat) : bool :=
  match h !! c with Some true => true | _ => false end.

(** [ctx.Err()] of a context of the heap; a context never cancelled
    (such as [context.Background()]) reports nil. *)
Definition ctx_Err (s : Store) (c : nat) : option error :=
  match ctxs s !! c with Some e => e | None => None end.

(** Cancelling a context: the first cancellation wins. *)
Definition cancel_ctx (c : nat) (e : error) (s : Store) : Store :=
  match ctx_Err s c with
  | Some _ => s
  | None => set_ctxs (<[c := Some e]> (ctxs s)) s
  end.

(** [NewStore]: the primary channel is created and closed at once. *)
Definition NewStore (path0 : string) (candidate0 : bool) : Store :=
  let '(pch, h1) := make_chan ∅ in
  let h2 := default h1 (close_chan pch h1) in
  let '(rch, h3) := make_chan h2 in
  let '(dch, h4) := make_chan h3 in
  {| path := path0; id := 0; dbs := ∅; subscribers := ∅;
     isPrimary := false; primaryCh := pch; candidate := candidate0;
     readyCh := rch; demoteCh := dch;
     DemoteDelay := DefaultDemoteDelay; Retention := DefaultRetention;
     chans := h4; ctxs := ∅; subs := ∅ |}.

Definition Store_ID (s : Store) : Z := id s.

Definition DBPath (s : Store) (name : string) : string :=
  path s +:+ "/dbs/" +:+ name.

(** [markReady]: closes the ready channel unless it is closed already. *)
Definition markReady (s : Store) : option Store :=
  if chan_closed (chans s) (readyCh s) then Some s
  else h ← close_chan (readyCh s) (chans s); Some (set_chans h s).

(** [Demote]: closes the demote channel and installs a new one. *)
Definition Demote (s : Store) : option Store :=
  h ← close_chan (demoteCh s) (chans s);
  let '(c, h') := make_chan h in
  Some (set_demoteCh c (set_chans h' s)).

Definition IsPrimary (s : Store) : bool := isPrimary s.

(** [setIsPrimary]: a new channel when becoming primary, the existing one
    closed when losing primary status, nothing when the flag is unchanged. *)
Definition setIsPrimary (v : bool) (s : Store) : option Store :=
  s1 ← (if decide (isPrimary s ≠ v) then
          if v then
            let '(c, h) := make_chan (chans s) in
            Some (set_primaryCh c (set_chans h s))
          else
            h ← close_chan (primaryCh s) (chans s); Some (set_chans h s)
        else Some s);
  Some (set_isPrimary v s1).

(** *** primaryCtx *)

(** [done] is private to the context and closed only by its goroutine:
    it is kept as a flag, with [watching] telling whether the goroutine
    started by [newPrimaryCtx] is still blocked in its [select]. *)
Record primaryCtx := mkPrimaryCtx {
  pc_parent : nat;
  pc_primaryCh : nat;
  pc_done : bool;
  pc_watching : bool
}.

Definition newPrimaryCtx (parent primaryCh0 : nat) : primaryCtx :=
  {| pc_parent := parent; pc_primaryCh := primaryCh0;
     pc_done := false; pc_watching := true |}.

(** [Store.PrimaryCtx]. *)
Definition PrimaryCtx (s : Store) (parent : nat) : primaryCtx :=
  newPrimaryCtx parent (primaryCh s).

(** Whether [parent.Done()] is closed: exactly when [parent.Err()] is
    non-nil. *)
Definition parent_done (s : Store) (c : primaryCtx) : bool :=
  bool_decide (is_Some (ctx_Err s (pc_parent c))).

(** One step of the goroutine: it leaves its [select] when one of the two
    receives is ready, and closes [done] in either case. *)
Definition watcher_step (s : Store) (c : primaryCtx) : option primaryCtx :=
  if pc_watching c then
    if chan_closed (chans s) (pc_primaryCh c) || parent_done s c then
      Some {| pc_parent := pc_parent c; pc_primaryCh := pc_primaryCh c;
              pc_done := true; pc_watching := false |}
    else None
  else None.

(** [Done()] returns the channel; this is whether it is closed. *)
Definition primaryCtx_Done (c : primaryCtx) : bool := pc_done c.

Definition primaryCtx_Err (s : Store) (c : primaryCtx) : option error :=
  if chan_closed (chans s) (pc_primaryCh c) then Some ErrLeaseExpired
  else ctx_Err s (pc_parent c).

(** *** Subscribers of the store *)

(** [Subscribe]: a new subscriber object, registered in the set. *)
Definition Subscribe (s : Store) : nat * Store :=
  let sub := fresh (dom (subs s)) in
  (sub, set_subscribers ({[sub]} ∪ subscribers s)
          (set_subs (<[sub := newSubscriber]> (subs s)) s)).

Definition Unsubscribe (sub : nat) (s : Store) : Store :=
  set_subscribers (subscribers s ∖ {[sub]}) s.

(** [markDirty]: marks the database dirty on every registered subscriber. *)
Definition markDirty (name : string) (s : Store) : Store :=
  set_subs (foldr (λ sub h, alter (Subscriber_MarkDirty name) sub h)
              (subs s) (elements (subscribers s))) s.

Definition Store_MarkDirty (name : string) (s : Store) : Store :=
  markDirty name s.

(** [sub.DirtySet()] through the subscriber's pointer. *)
Definition DirtySet_at (sub : nat) (s : Store) : option (gset string * Store) :=
  o ← subs s !! sub;
  let '(d, o') := Subscriber_DirtySet o in
  Some (d, set_subs (<[sub := o']> (subs s)) s).

(** [sub.MarkDirty] called for a list of names, one call after the other. *)
Definition mark_all (names : list string) (sub : Subscriber) : Subscriber :=
  foldl (λ o name, Subscriber_MarkDirty name o) sub names.

(** [Store.MarkDirty] called for a list of names. *)
Definition store_mark_all (names : list string) (s : Store) : Store :=
  foldl (λ st name, Store_MarkDirty name st) s names.

(** *** Creating and dropping databases *)

(** Outcomes of the calls [CreateDB] and [CreateDBIfNotExists] make
    outside the store: [os.MkdirAll], creating the database file, and
    [db.Open].  The directory and the database file are not part of the
    state: nothing below reads them. *)
Record CreateEnv := mkCreateEnv {
  env_MkdirAll : option error;
  env_CreateFile : option error;
  env_Open : option error
}.

Definition CreateDB (env : CreateEnv) (name : string) (s : Store)
    : (error + DB) * Store :=
  match dbs s !! name with
  | Some _ => (inl ErrDatabaseExists, s)
  | None =>
    match env_MkdirAll env with
    | Some e => (inl e, s)
    | None =>
      match env_CreateFile env with
      | Some e => (inl e, s)
      | None =>
        match env_Open env with
        | Some e => (inl e, s)
        | None =>
          let db := NewDB name (DBPath s name) in
          (inr db, markDirty name (set_dbs (<[name := db]> (dbs s)) s))
        end
      end
    end
  end.

Definition CreateDBIfNotExists (env : CreateEnv) (name : string) (s : Store)
    : (error + DB) * Store :=
  match dbs s !! name with
  | Some db => (inr db, s)
  | None =>
    match env_MkdirAll env with
    | Some e => (inl e, s)
    | None =>
      match env_CreateFile env with
      | Some e => (inl e, s)
      | None =>
        match env_Open env with
        | Some e => (inl e, s)
        | None =>
          let db := NewDB name (DBPath s name) in
          (inr db, markDirty name (set_dbs (<[name := db]> (dbs s)) s))
        end
      end
    end
  end.

(** [DropDB]; [removeAll] is the outcome of [os.RemoveAll(db.Path())]. *)
Definition DropDB (removeAll : option error) (name : string) (s : Store)
    : option error * Store :=
  match dbs s !! name with
  | None => (Some ErrDatabaseNotFound, s)
  | Some db =>
    match removeAll with
    | Some e => (Some (Errorf "remove db path" e), s)
    | None => (None, markDirty name (set_dbs (delete name (dbs s)) s))
    end
  end.

Definition processDropDBStreamFrame (removeAll : option error) (name : string)
    (s : Store) : option error * Store :=
  match DropDB removeAll name s with
  | (Some e, s') =>
      if is_ErrDatabaseNotFound e then (None, s')
      else (Some (Errorf "drop database" e), s')
  | (None, s') => (None, s')
  end.

(** [DBs]: the databases, each with the key that stands for its pointer,
    in the iteration order of the map. *)
Definition DBs (s : Store) : list (string * DB) := map_to_list (dbs s).

(** *** Retention *)

Section Retention.
(** [DB.EnforceRetention(ctx, minTime)] lives in db.go, which is not
    among the sources: it is a parameter, any function from the cut-off
    time and the database to an error and the database after the call. *)
Variable DB_EnforceRetention : Z → DB → option error * DB.

(** One iteration of the loop: [err] is the named result. *)
Definition retention_iter (minTime : Z) (acc : option error * gmap string DB)
    (kd : string * DB) : option error * gmap string DB :=
  let '(e, db') := DB_EnforceRetention minTime kd.2 in
  (match acc.1 with
   | None => Some (wrapf ("cannot enforce retention on db " +:+ db_name db') e)
   | Some err => Some err
   end, <[kd.1 := db']> acc.2).

Definition retention_loop (minTime : Z) (l : list (string * DB))
    (m : gmap string DB) : option error * gmap string DB :=
  foldl (retention_iter minTime) (None, m) l.

(** [Store.EnforceRetention]; [now] is [time.Now()]. *)
Definition Store_EnforceRetention (now : Z) (s : Store) : option error * Store :=
  if decide (Retention s ≤ 0) then (None, s)
  else
    let minTime := now - Retention s in
    let '(err, m) := retention_loop minTime (DBs s) (dbs s) in
    (None, set_dbs m s).

(** The function as the specification words it, for comparison: the
    first error of a per-DB call is retained, the remaining databases are
    still processed, and the retained error is returned. *)
Definition retention_iter_spec (minTime : Z)
    (acc : option error * gmap string DB) (kd : string * DB)
    : option error * gmap string DB :=
  let '(e, db') := DB_EnforceRetention minTime kd.2 in
  (match acc.1 with
   | None => Errorf ("cannot enforce retention on db " +:+ db_name db') <$> e
   | Some err => Some err
   end, <[kd.1 := db']> acc.2).

Definition Store_EnforceRetention_spec (now : Z) (s : Store)
    : option error * Store :=
  if decide (Retention s ≤ 0) then (None, s)
  else
    let minTime := now - Retention s in
    let '(err, m) :=
      foldl (retention_iter_spec minTime) (None, dbs s) (DBs s) in
    (err, set_dbs m s).
End Retention.

(** *** Files of the LTX directory *)

(** [os.ReadDir] returns the entries sorted by filename. *)
Definition os_ReadDir (d : gmap string Dirent) : list (string * Dirent) :=
  merge_sort (λ a b, String.le a.1 b.1) (map_to_list d).

(** [os.Remove]: [fail] is what the operating system answers for a name
    it refuses to remove. *)
Definition os_Remove (fail : string → option error) (name : string)
    (d : gmap string Dirent) : option error * gmap string Dirent :=
  match fail name with
  | Some e => (Some e, d)
  | None =>
    match d !! name with
    | Some _ => (None, delete name d)
    | None => (Some (ErrExternal "no such file or directory"), d)
    end
  end.

Definition removeFilesExcept_iter (fail : string → option error)
    (filename : string) (acc : option error * gmap string Dirent)
    (ent : string * Dirent) : option error * gmap string Dirent :=
  if Dirent_IsDir ent.2 || bool_decide (ent.1 = filename) then acc
  else
    let '(err, d') := os_Remove fail ent.1 acc.2 in
    (match acc.1 with None => err | Some r => Some r end, d').

(** [removeFilesExcept]: removes all files except [filename], going on
    after an error and returning the first one. *)
Definition removeFilesExcept (readDir : option error)
    (fail : string → option error) (filename : string)
    (d : gmap string Dirent) : option error * gmap string Dirent :=
  match readDir with
  | Some e => (Some e, d)
  | None => foldl (removeFilesExcept_iter fail filename) (None, d) (os_ReadDir d)
  end.

(** *** Replica stream: LTX frames *)

(** What reading [src] yields: the result of [ltx.DecodeHeader], and the
    post-apply checksum carried by the trailer of the file. *)
Record Reader := mkReader {
  rd_header : error + Header;
  rd_post_apply_checksum : Z
}.

(** Outcomes of the calls [processLTXStreamFrame] makes outside the
    store, in the order of the source. *)
Record FrameEnv := mkFrameEnv {
  env_create : CreateEnv;
  env_AcquireWriteLock : option error;
  env_Verify : option error;
  env_Discard : option error;
  env_UnsetRemoteHaltLock : option error;
  env_rand : Z;
  env_Create : option error;
  env_Copy : option error;
  env_Sync : option error;
  env_Rename : option error;
  env_SyncDir : option error;
  env_ReadDir : option error;
  env_Remove : string → option error;
  env_ApplyLTX : option error
}.

(** Modelled from the spec: [DB.UnsetRemoteHaltLock(ctx, id)] (db.go is not
    among the sources) clears the remote HALT lock with that id, or fails
    and leaves it. *)
Definition DB_UnsetRemoteHaltLock (fail : option error) (lockID : Z) (db : DB)
    : option error * DB :=
  match fail with
  | Some e => (Some e, db)
  | None =>
    match db_remoteHaltLock db with
    | Some h =>
        if decide (HaltLock_ID h = lockID)
        then (None, set_db_remoteHaltLock None db) else (None, db)
    | None => (None, db)
    end
  end.

(** Modelled from the spec: [DB.ApplyLTXNoLock(ctx, path)] (db.go is not
    among the sources) applies the file persisted at [path] and updates the
    position: afterwards [pos.TXID] is the file's [MaxTXID] and
    [pos.PostApplyChecksum] its post-apply checksum; on failure the
    position is left as it was. *)
Definition DB_ApplyLTXNoLock (fail : option error) (file : string) (db : DB)
    : option error * DB :=
  match fail with
  | Some e => (Some e, db)
  | None =>
    match db_ltx db !! file with
    | Some (EntFile (Some d)) =>
        (None, set_db_pos (mkPos (MaxTXID (ltx_header d))
                                 (ltx_post_apply_checksum d)) db)
    | _ => (Some (ErrExternal "open ltx file"), db)
    end
  end.

(** Sequencing of steps that return an error and the database. *)
Definition and_then (r : option error * DB) (k : DB → option error * DB)
    : option error * DB :=
  match r.1 with
  | Some e => (Some e, r.2)
  | None => k r.2
  end.

Notation "'let*' db := r 'in' k" := (and_then r (λ db, k))
  (at level 10, db name, r at level 100, k at level 200).

(** A call that only fails or succeeds: its error is wrapped with [msg]. *)
Definition guard_call (msg : string) (r : option error) (db : DB)
    : option error * DB := (Errorf msg <$> r, db).

(** The self-origin branch: verify the file, drain the stream. *)
Definition verify_duplicate (env : FrameEnv) (db : DB) : option error * DB :=
  let* db := guard_call "verify duplicate ltx file" (env_Verify env) db in
  let* db := guard_call "discard ltx body" (env_Discard env) db in
  (None, db).

(** Clearing the remote HALT lock if one is held. *)
Definition unhalt (env : FrameEnv) (db : DB) : option error * DB :=
  match db_remoteHaltLock db with
  | Some haltLock =>
      let r := DB_UnsetRemoteHaltLock (env_UnsetRemoteHaltLock env)
                 (HaltLock_ID haltLock) db in
      (Errorf "release remote halt lock" <$> r.1, r.2)
  | None => (None, db)
  end.

(** The pre-apply position expected by a header. *)
Definition expectedPos (hdr : Header) : Pos :=
  {| TXID := wrap64 (MinTXID hdr - 1); PostApplyChecksum := PreApplyChecksum hdr |}.

Definition check_position (hdr : Header) (db : DB) : option error * DB :=
  if negb (IsSnapshot hdr) then
    if decide (db_pos db ≠ expectedPos hdr)
    then (Some (ErrPositionMismatch (db_name db) (db_pos db) (expectedPos hdr)), db)
    else (None, db)
  else (None, db).

(** After a snapshot the other files of the LTX directory are removed. *)
Definition remove_after_snapshot (env : FrameEnv) (hdr : Header)
    (file : string) (db : DB) : option error * DB :=
  if IsSnapshot hdr then
    let r := removeFilesExcept (env_ReadDir env) (env_Remove env) file (db_ltx db) in
    (Errorf "remove ltx after snapshot" <$> r.1, set_db_ltx r.2 db)
  else (None, db).

Definition apply_ltx (env : FrameEnv) (file : string) (db : DB)
    : option error * DB :=
  let r := DB_ApplyLTXNoLock (env_ApplyLTX env) file db in
  (Errorf "apply ltx" <$> r.1, r.2).

(** From [os.Create(tmpPath)] to the end of the function: write to the
    temporary file, rename it, remove the other files after a snapshot,
    apply. *)
Definition install_ltx (env : FrameEnv) (hdr : Header) (src : Reader)
    (file tmp : string) (db : DB) : option error * DB :=
  let data := mkLTXData hdr (rd_post_apply_checksum src) in
  let* db := guard_call "cannot create temp ltx file" (env_Create env) db in
  let db := set_db_ltx (<[tmp := EntFile None]> (db_ltx db)) db in
  let* db := guard_call "write ltx file" (env_Copy env) db in
  let db := set_db_ltx (<[tmp := EntFile (Some data)]> (db_ltx db)) db in
  let* db := guard_call "fsync ltx file" (env_Sync env) db in
  let* db := guard_call "rename ltx file" (env_Rename env) db in
  let db := set_db_ltx (<[file := EntFile (Some data)]> (delete tmp (db_ltx db))) db in
  let* db := guard_call "sync ltx dir" (env_SyncDir env) db in
  let* db := remove_after_snapshot env hdr file db in
  let* db := apply_ltx env file db in
  (None, db).

(** From the choice of the temporary name to the end of the function.
    The deferred [os.Remove(tmpPath)] runs on every path through this
    part, and its error is dropped. *)
Definition write_and_apply (env : FrameEnv) (hdr : Header) (src : Reader)
    (db : DB) : option error * DB :=
  let file := FormatFilename (MinTXID hdr) (MaxTXID hdr) in
  let tmp := tmpName file (env_rand env) in
  let r := install_ltx env hdr src file tmp db in
  (r.1, set_db_ltx (os_Remove (env_Remove env) tmp (db_ltx r.2)).2 r.2).

(** The function once the write lock is held. *)
Definition process_locked (env : FrameEnv) (self : Z) (hdr : Header)
    (src : Reader) (db : DB) : option error * DB :=
  if decide (NodeID hdr = self) then verify_duplicate env db
  else
    let* db := unhalt env db in
    let* db := check_position hdr db in
    write_and_apply env hdr src db.

(** [processLTXStreamFrame]: [name] is [frame.Name].  The database is a
    pointer shared with the map of the store, so what the function does to
    it is seen under its key. *)
Definition processLTXStreamFrame (env : FrameEnv) (name : string)
    (src : Reader) (s : Store) : option error * Store :=
  match CreateDBIfNotExists (env_create env) name s with
  | (inl e, s1) => (Some (Errorf "create database" e), s1)
  | (inr db, s1) =>
    match rd_header src with
    | inl e => (Some (Errorf "peek ltx header" e), s1)
    | inr hdr =>
      match env_AcquireWriteLock env with
      | Some e => (Some e, s1)
      | None =>
        let r := process_locked env (Store_ID s1) hdr src db in
        (r.1, set_dbs (<[name := r.2]> (dbs s1)) s1)
      end
    end
  end.

(** *** Lease monitoring as primary *)

(** What wakes the [select] of the loop: the timer (with the result of
    [lease.Renew] and the value of [time.Since(lease.RenewedAt())] read
    after a failed renewal), the demote channel, or the context. *)
Inductive event : Type :=
  | EvTimer (renew : option error) (since : Z)
  | EvDemote
  | EvCtxDone.

(** What the function does that is seen from outside. *)
Inductive action : Type :=
  | ActWait (d : Z)
  | ActSleep (d : Z)
  | ActLeaseClose
  | ActSleepWithContext (d : Z).

(** How the loop ends: it returns, or it is blocked in [select] with a
    timer of [waitDur]. *)
Inductive outcome : Type :=
  | Returned (err : option error) (demoted : bool)
  | Blocked (waitDur : Z).

Definition timeout : Z := 1 * Second.

(** What the timer branch decides: go round the loop again with a new
    [waitDur], or return. *)
Inductive decision : Type :=
  | Retry (waitDur : Z)
  | Stop (err : option error) (acts : list action).

(** The body of [case <-time.After(waitDur)]. *)
Definition on_timer (ttl : Z) (renew : option error) (since : Z) : decision :=
  match renew with
  | Some err =>
    if is_ErrLeaseExpired err then Stop (Some err) []
    else if decide (wrap_int64 (since + timeout) > ttl) then
      Stop (Some ErrLeaseExpired) [ActSleep timeout]
    else Retry Second
  | None => Retry (Z.quot ttl 2)
  end.

(** The [for { select { ... } }] loop, one event per iteration. *)
Fixpoint lease_loop (ttl waitDur : Z) (evs : list event) : outcome * list action :=
  match evs with
  | [] => (Blocked waitDur, [])
  | EvTimer renew since :: evs' =>
    match on_timer ttl renew since with
    | Stop err acts => (Returned err false, ActWait waitDur :: acts)
    | Retry waitDur' =>
        let r := lease_loop ttl waitDur' evs' in (r.1, ActWait waitDur :: r.2)
    end
  | EvDemote :: _ => (Returned None true, [])
  | EvCtxDone :: _ => (Returned None false, [])
  end.

(** [monitorLeaseAsPrimary]; [ttl] is [lease.TTL()].  The two deferred
    calls run in reverse order when the loop returns; [None] is a panic. *)
Definition monitorLeaseAsPrimary (ttl : Z) (evs : list event) (s : Store)
    : option (outcome * list action * Store) :=
  s1 ← setIsPrimary true s;
  s2 ← markReady s1;
  let r := lease_loop ttl (Z.quot ttl 2) evs in
  match r.1 with
  | Blocked w => Some (Blocked w, r.2, s2)
  | Returned err demoted =>
    s3 ← setIsPrimary false s2;
    Some (Returned err demoted,
          r.2 ++ ActLeaseClose ::
            (if demoted then [ActSleepWithContext (DemoteDelay s3)] else []),
          s3)
  end.

(** ** The store as a transition system *)

(** One step of the store: any of the operations above, called by any
    goroutine. *)
Inductive store_step : Store → Store → Prop :=
  | step_setIsPrimary v s s' :
      setIsPrimary v s = Some s' → store_step s s'
  | step_markReady s s' :
      markReady s = Some s' → store_step s s'
  | step_Demote s s' :
      Demote s = Some s' → store_step s s'
  | step_cancel_ctx c e s :
      store_step s (cancel_ctx c e s)
  | step_Subscribe s :
      store_step s (Subscribe s).2
  | step_Unsubscribe sub s :
      store_step s (Unsubscribe sub s)
  | step_MarkDirty name s :
      store_step s (Store_MarkDirty name s)
  | step_DirtySet sub d s s' :
      DirtySet_at sub s = Some (d, s') → store_step s s'
  | step_CreateDB env name s :
      store_step s (CreateDB env name s).2
  | step_CreateDBIfNotExists env name s :
      store_step s (CreateDBIfNotExists env name s).2
  | step_DropDB r name s :
      store_step s (DropDB r name s).2
  | step_processDropDBStreamFrame r name s :
      store_step s (processDropDBStreamFrame r name s).2
  | step_EnforceRetention f now s :
      store_step s (Store_EnforceRetention f now s).2
  | step_processLTXStreamFrame env name src s :
      store_step s (processLTXStreamFrame env name src s).2.


(** A store together with one [primaryCtx]: the store moves, or the
    goroutine of the context runs. *)
Inductive ctx_step : Store * primaryCtx → Store * primaryCtx → Prop :=
  | ctx_step_store s s' c :
      store_step s s' → ctx_step (s, c) (s', c)
  | ctx_step_watcher s c c' :
      watcher_step s c = Some c' → ctx_step (s, c) (s, c').

(** Everything in the store but the DB map and the subscribers: identity,
    settings, primary status and the channels. *)
Definition control (s : Store) :=
  (path s, id s, candidate s, DemoteDelay s, Retention s,
   isPrimary s, primaryCh s, readyCh s, demoteCh s, chans s, ctxs s).

(** The primary channel is open exactly while the store is primary, and
    the three channels of the store are distinct. *)
Record chans_wf (s : Store) : Prop := mk_chans_wf {
  wf_primaryCh : chans s !! primaryCh s = Some (negb (isPrimary s));
  wf_readyCh : is_Some (chans s !! readyCh s);
  wf_demoteCh : chans s !! demoteCh s = Some false;
  wf_primary_ready : primaryCh s ≠ readyCh s;
  wf_primary_demote : primaryCh s ≠ demoteCh s;
  wf_ready_demote : readyCh s ≠ demoteCh s
}.

(** Values of type [uint64]. *)
Definition is_uint64 (z : Z) : Prop := 0 ≤ z < 2 ^ 64.

(** Every call [processLTXStreamFrame] makes outside the store, past the
    decoding of the header, succeeds. *)
Definition env_succeeds (env : FrameEnv) : Prop :=
  env_AcquireWriteLock env = None ∧
  env_UnsetRemoteHaltLock env = None ∧
  env_Create env = None ∧ env_Copy env = None ∧ env_Sync env = None ∧
  env_Rename env = None ∧ env_SyncDir env = None ∧
  env_ReadDir env = None ∧ (∀ n, env_Remove env n = None) ∧
  env_ApplyLTX env = None.

(** ** A replica for the examples *)

(** An environment in which every call succeeds. *)
Definition create_ok : CreateEnv := mkCreateEnv None None None.

Definition env_ok : FrameEnv :=
  mkFrameEnv create_ok None None None None 5577006791947779410
    None None None None None None (λ _, None) None.

(** The same, except that the primary refuses to release the HALT lock. *)
Definition env_unset_fails : FrameEnv :=
  mkFrameEnv create_ok None None None (Some (ErrExternal "unset halt lock")) 0
    None None None None None None (λ _, None) None.

(** An LTX file on disk. *)
Definition ltx_file (node minTXID maxTXID pre post : Z) : Dirent :=
  EntFile (Some (mkLTXData
    (mkHeader minTXID maxTXID pre node (bool_decide (minTXID = 1))) post)).

(** Database [db] at position (5, 0xAA) with the files 1-1, 2-3 and 4-5,
    the first and the last written by this node (node 2) under a remote
    HALT lock, which it still holds. *)
Definition replica_db : DB :=
  {| db_name := "db"; db_path := "/data/dbs/db";
     db_pos := mkPos 5 170;
     db_remoteHaltLock := Some (mkHaltLock 7 1000);
     db_ltx := <[FormatFilename 1 1 := ltx_file 2 1 1 0 17]>
                 (<[FormatFilename 2 3 := ltx_file 1 2 3 17 51]>
                    (<[FormatFilename 4 5 := ltx_file 2 4 5 51 170]> ∅)) |}.

(** A replica with node ID 2. *)
Definition replica : Store :=
  set_id 2 (set_dbs {[ "db" := replica_db ]} (NewStore "/data" true)).

(** Frames: the next transaction from the primary (node 1), one that is
    out of order, a snapshot from the primary, and two frames this node
    wrote itself that come back through the primary. *)
Definition frame_next : Reader :=
  mkReader (inr (mkHeader 6 7 170 1 false)) 187.
Definition frame_out_of_order : Reader :=
  mkReader (inr (mkHeader 8 8 187 1 false)) 204.
Definition frame_snapshot : Reader :=
  mkReader (inr (mkHeader 1 10 0 1 true)) 48879.
Definition frame_own : Reader :=
  mkReader (inr (mkHeader 4 5 51 2 false)) 170.


(** ** Further parts of the store *)


(** The subscribers of the store: the registered ones and the objects. *)
Definition registry (s : Store) : gset nat * gmap nat Subscriber :=
  (subscribers s, subs s).

(** Every database is stored under its own name. *)
Definition names_ok (s : Store) : Prop :=
  ∀ k db, dbs s !! k = Some db → db_name db = k.

(** [PosMap]: the position of every database, under [db.Name()]. *)
Definition PosMap (s : Store) : gmap string Pos :=
  foldl (λ m kd, <[db_name kd.2 := db_pos kd.2]> m) ∅ (map_to_list (dbs s)).

(** An error built by [fmt.Errorf] from a message alone. *)
Definition errorf_msg (msg : string) : error := ErrExternal msg.

Definition is_ErrNoPrimary (e : error) : bool :=
  match e with ErrNoPrimary => true | _ => false end.

Definition is_ErrPrimaryExists (e : error) : bool :=
  match e with ErrPrimaryExists => true | _ => false end.

(** *** Recovery and opening of the databases *)

Section DBMethods.
(** [DB.Recover(ctx)] and [DB.Open()] live in db.go, which is not among
    the sources: they are parameters.  [DB_Recover] is any function from
    the database to an error and the database after the call; [DB_Open] is
    any function from the name and the path given to [NewDB] to the error
    of [Open] and the object after the call. *)
Variable DB_Recover : DB → option error * DB.
Variable DB_Open : string → string → option error * DB.

(** The loop of [Recover] over [s.DBs()]: it returns at the first error. *)
Fixpoint Recover_loop (l : list (string * DB)) (m : gmap string DB)
    : option error * gmap string DB :=
  match l with
  | [] => (None, m)
  | kd :: l' =>
    let r := DB_Recover kd.2 in
    match r.1 with
    | Some err =>
        (Some (Errorf ("db " +:+ db_name r.2) err), <[kd.1 := r.2]> m)
    | None => Recover_loop l' (<[kd.1 := r.2]> m)
    end
  end.

Definition Store_Recover (s : Store) : option error * Store :=
  let r := Recover_loop (DBs s) (dbs s) in (r.1, set_dbs r.2 s).

(** [openDatabase]: [NewDB] followed by [db.Open()]; if that succeeds the
    object is stored under [db.Name()]. *)
Definition openDatabase (name : string) (s : Store) : option error * Store :=
  let r := DB_Open name (DBPath s name) in
  match r.1 with
  | Some err => (Some err, s)
  | None => (None, set_dbs (<[db_name r.2 := r.2]> (dbs s)) s)
  end.

Fixpoint openDatabases_loop (fis : list string) (s : Store) : option error * Store :=
  match fis with
  | [] => (None, s)
  | name :: fis' =>
    let r := openDatabase name s in
    match r.1 with
    | Some err => (Some (Errorf ("open database(" +:+ name +:+ ")") err), r.2)
    | None => openDatabases_loop fis' r.2
    end
  end.

(** [openDatabases]: [mkdirAll] is the outcome of [os.MkdirAll], [readDir]
    the one of [os.ReadDir], the names of the entries of the directory. *)
Definition openDatabases (mkdirAll : option error) (readDir : error + list string)
    (s : Store) : option error * Store :=
  match mkdirAll with
  | Some e => (Some e, s)
  | None =>
    match readDir with
    | inl e => (Some (Errorf "readdir" e), s)
    | inr fis => openDatabases_loop fis s
    end
  end.
End DBMethods.

(** *** The node ID *)

(** [bytes.TrimSpace] removes leading and trailing white space as defined
    by Unicode: the ASCII characters tab, line feed, vertical tab, form
    feed, carriage return and space, and the runes U+0085, U+00A0, U+1680,
    U+2000 to U+200A, U+2028, U+2029, U+202F, U+205F and U+3000 in their
    UTF-8 encoding. *)
Definition is_ascii_space (a : ascii) : bool :=
  let n := nat_of_ascii a in
  ((9 <=? n)%nat && (n <=? 13)%nat) || (n =? 32)%nat.

Definition is_space2 (a b : ascii) : bool :=
  let x := nat_of_ascii a in let y := nat_of_ascii b in
  (x =? 194)%nat && ((y =? 133)%nat || (y =? 160)%nat).

Definition is_space3 (a b c : ascii) : bool :=
  let x := nat_of_ascii a in let y := nat_of_ascii b in
  let z := nat_of_ascii c in
  ((x =? 225)%nat && (y =? 154)%nat && (z =? 128)%nat) ||
  ((x =? 226)%nat && (y =? 128)%nat &&
     (((128 <=? z)%nat && (z <=? 138)%nat) ||
      (z =? 168)%nat || (z =? 169)%nat || (z =? 175)%nat)) ||
  ((x =? 226)%nat && (y =? 129)%nat && (z =? 159)%nat) ||
  ((x =? 227)%nat && (y =? 128)%nat && (z =? 128)%nat).

Fixpoint TrimLeftSpace (s : string) : string :=
  match s with
  | EmptyString => EmptyString
  | String a s1 =>
    if is_ascii_space a then TrimLeftSpace s1
    else
      match s1 with
      | String b s2 =>
        if is_space2 a b then TrimLeftSpace s2
        else
          match s2 with
          | String c s3 => if is_space3 a b c then TrimLeftSpace s3 else s
          | EmptyString => s
          end
      | EmptyString => s
      end
  end.

(** The same from the end, on the reversed string. *)
Fixpoint TrimLeftSpace_rev (s : string) : string :=
  match s with
  | EmptyString => EmptyString
  | String c s1 =>
    if is_ascii_space c then TrimLeftSpace_rev s1
    else
      match s1 with
      | String b s2 =>
        if is_space2 b c then TrimLeftSpace_rev s2
        else
          match s2 with
          | String a s3 => if is_space3 a b c then TrimLeftSpace_rev s3 else s
          | EmptyString => s
          end
      | EmptyString => s
      end
  end.

Definition TrimSpace (s : string) : string :=
  String.rev (TrimLeftSpace_rev (String.rev (TrimLeftSpace s))).

(** The value of a digit for [strconv.ParseUint] in base 16: [0-9], and
    the letters through [lower(c) = c | 0x20]; a digit of 16 or more is a
    syntax error. *)
Definition hex_value (a : ascii) : option Z :=
  let c := Z.of_nat (nat_of_ascii a) in
  if (48 <=? c) && (c <=? 57) then Some (c - 48)
  else
    let l := Z.lor c 32 in
    if (97 <=? l) && (l <=? 122) then
      if l - 97 + 10 <? 16 then Some (l - 97 + 10) else None
    else None.

Inductive NumError : Type := ErrSyntax | ErrRange.

Fixpoint ParseUint16_go (acc : Z) (s : string) : NumError + Z :=
  match s with
  | EmptyString => inr acc
  | String a s' =>
    match hex_value a with
    | None => inl ErrSyntax
    | Some d =>
      if decide (acc * 16 + d > 2 ^ 64 - 1) then inl ErrRange
      else ParseUint16_go (acc * 16 + d) s'
    end
  end.

(** [strconv.ParseUint(s, 16, 64)]: the value and the error; the value is
    0 on a syntax error and the largest [uint64] on a range error. *)
Definition ParseUint16 (s : string) : Z * option NumError :=
  match s with
  | EmptyString => (0, Some ErrSyntax)
  | _ =>
    match ParseUint16_go 0 s with
    | inr v => (v, None)
    | inl ErrSyntax => (0, Some ErrSyntax)
    | inl ErrRange => (2 ^ 64 - 1, Some ErrRange)
    end
  end.

(** [fmt.Fprintf(f, "%016X\n", id)] for a [uint64]. *)
Definition hex_digit_upper (z : Z) : ascii :=
  if decide (z < 10) then ascii_of_N (Z.to_N (48 + z))
  else ascii_of_N (Z.to_N (55 + z)).

Fixpoint hex_fixed_upper (digits : nat) (z : Z) : string :=
  match digits with
  | O => EmptyString
  | S d => hex_fixed_upper d (z / 16)
             +:+ String (hex_digit_upper (z mod 16)) EmptyString
  end.

Definition newline : string := String (ascii_of_nat 10) EmptyString.

Definition format_id (i : Z) : string := hex_fixed_upper 16 i +:+ newline.

(** [binary.BigEndian.Uint64(b)]: the first eight bytes. *)
Definition BigEndian_Uint64 (b : list Z) : Z :=
  foldl (λ acc x, acc * 256 + x) 0 (take 8 b).

(** Outcomes of the calls of [initID] outside the store: an error of
    [os.ReadFile] other than "does not exist", the 16 bytes read from
    [crand.Reader], and the writing of the file ([Fprintf] fails after a
    number of bytes). *)
Record InitEnv := mkInitEnv {
  ie_ReadFile : option error;
  ie_rand : error + list Z;
  ie_Create : option error;
  ie_Fprintf : option (error * nat);
  ie_Sync : option error;
  ie_Close : option error
}.

(** [initID]; [file] is the content of the id file, if it exists.  The
    result is the error, the file afterwards and the store. *)
Definition initID (env : InitEnv) (file : option string) (s : Store)
    : option error * option string * Store :=
  match ie_ReadFile env with
  | Some e => (Some e, file, s)
  | None =>
    match file with
    | Some buf =>
      let str := TrimSpace buf in
      let str := if decide (16 < String.length str)%nat
                 then substring 0 16 str else str in
      let r := ParseUint16 str in
      match r.2 with
      | Some _ =>
          (Some (errorf_msg ("cannot parse id file: " +:+ str)), file, set_id r.1 s)
      | None => (None, file, set_id r.1 s)
      end
    | None =>
      match ie_rand env with
      | inl e => (Some (Errorf "generate id" e), None, s)
      | inr b =>
        let i := BigEndian_Uint64 b in
        match ie_Create env with
        | Some e => (Some e, None, s)
        | None =>
          match ie_Fprintf env with
          | Some (e, n) => (Some e, Some (substring 0 n (format_id i)), s)
          | None =>
            match ie_Sync env with
            | Some e => (Some e, Some (format_id i), s)
            | None =>
              match ie_Close env with
              | Some e => (Some e, Some (format_id i), s)
              | None => (None, Some (format_id i), set_id i s)
              end
            end
          end
        end
      end
    end
  end.

(** *** Finding the primary or becoming it *)

Record PrimaryInfo := mkPrimaryInfo { Hostname : string; AdvertiseURL : string }.

Record Lease := mkLease { Lease_TTL : Z }.

(** What [Leaser.Acquire] returns: an error, a lease, or neither. *)
Inductive AcquireResult : Type :=
  | AcquireError (e : error)
  | AcquireLease (l : Lease)
  | AcquireNil.

(** The answers of the leaser to the calls [acquireLeaseOrPrimaryInfo]
    may make, in their order. *)
Record LeaserAnswers := mkLeaserAnswers {
  la_PrimaryInfo : error + PrimaryInfo;
  la_Acquire : AcquireResult;
  la_PrimaryInfo_again : error + PrimaryInfo
}.

Inductive LeaserCall : Type := CallPrimaryInfo | CallAcquire.

Record AcquireOutcome := mkAcquireOutcome {
  ao_lease : option Lease;
  ao_info : option PrimaryInfo;
  ao_err : option error;
  ao_calls : list LeaserCall
}.

Definition refetch_primary (L : LeaserAnswers) : AcquireOutcome :=
  match la_PrimaryInfo_again L with
  | inl err =>
      mkAcquireOutcome None None (Some err)
        [CallPrimaryInfo; CallAcquire; CallPrimaryInfo]
  | inr info =>
      mkAcquireOutcome None (Some info) None
        [CallPrimaryInfo; CallAcquire; CallPrimaryInfo]
  end.

Definition acquireLeaseOrPrimaryInfo (L : LeaserAnswers) (s : Store)
    : AcquireOutcome :=
  match la_PrimaryInfo L with
  | inr info => mkAcquireOutcome None (Some info) None [CallPrimaryInfo]
  | inl err =>
    if is_ErrNoPrimary err && negb (candidate s) then
      mkAcquireOutcome None None (Some err) [CallPrimaryInfo]
    else if negb (is_ErrNoPrimary err) then
      mkAcquireOutcome None None (Some (Errorf "fetch primary url" err))
        [CallPrimaryInfo]
    else
      match la_Acquire L with
      | AcquireError err' =>
          if is_ErrPrimaryExists err' then refetch_primary L
          else mkAcquireOutcome None None (Some (Errorf "acquire lease" err'))
                 [CallPrimaryInfo; CallAcquire]
      | AcquireLease l =>
          mkAcquireOutcome (Some l) None None [CallPrimaryInfo; CallAcquire]
      | AcquireNil => refetch_primary L
      end
  end.

(** *** Replication as a replica *)

(** The frames of the stream, each with what its processing meets outside
    the store, and what [ReadStreamFrame] returns. *)
Inductive StreamFrame : Type :=
  | LTXStreamFrame (name : string) (src : Reader) (env : FrameEnv)
  | ReadyStreamFrame
  | EndStreamFrame
  | DropDBStreamFrame (name : string) (removeAll : option error)
  | OtherStreamFrame (typ : Z).

Inductive ReadResult : Type :=
  | ReadEOF
  | ReadError (e : error)
  | ReadFrame (f : StreamFrame).

(** How the function ends: it returns, or it is blocked reading the next
    frame. *)
Inductive replica_outcome : Type :=
  | ReplicaReturned (err : option error)
  | ReplicaReading.

(** The loop over the frames; [None] is a panic. *)
Fixpoint replica_loop (st : list ReadResult) (s : Store)
    : option (replica_outcome * Store) :=
  match st with
  | [] => Some (ReplicaReading, s)
  | ReadEOF :: _ => Some (ReplicaReturned None, s)
  | ReadError e :: _ => Some (ReplicaReturned (Some (Errorf "next frame" e)), s)
  | ReadFrame f :: st' =>
    match f with
    | LTXStreamFrame name src env =>
      let r := processLTXStreamFrame env name src s in
      match r.1 with
      | Some e =>
          Some (ReplicaReturned (Some (Errorf "process ltx stream frame" e)), r.2)
      | None => replica_loop st' r.2
      end
    | ReadyStreamFrame => s' ← markReady s; replica_loop st' s'
    | EndStreamFrame => Some (ReplicaReturned None, s)
    | DropDBStreamFrame name removeAll =>
      let r := processDropDBStreamFrame removeAll name s in
      match r.1 with
      | Some e =>
          Some (ReplicaReturned (Some (Errorf "process drop db stream frame" e)), r.2)
      | None => replica_loop st' r.2
      end
    | OtherStreamFrame typ =>
        Some (ReplicaReturned (Some (errorf_msg "invalid stream frame type")), s)
    end
  end.

(** * Properties *)

(** ** Subscribers *)

Lemma try_send_1 n : try_send 1 n = match n with O => 1%nat | _ => n end.
Proof. unfold try_send. destruct n; case_decide; try done; lia. Qed.

Lemma try_send_1_pos n : (1 ≤ try_send 1 n)%nat.
Proof. rewrite try_send_1. destruct n; lia. Qed.

Lemma try_send_1_le n : (n ≤ 1)%nat → try_send 1 n = 1%nat.
Proof. rewrite try_send_1. destruct n; lia. Qed.

Lemma mark_all_dirtySet names sub :
  dirtySet (mark_all names sub) = dirtySet sub ∪ list_to_set names.
Proof.
  revert sub. induction names as [|name names IH]; intros sub; simpl.
  - by rewrite union_empty_r_L.
  - rewrite IH. simpl. by rewrite (union_comm_L {[name]}), union_assoc_L.
Qed.

Lemma mark_all_notifyCh names sub :
  names ≠ [] → (notifyCh sub ≤ 1)%nat → notifyCh (mark_all names sub) = 1%nat.
Proof.
  revert sub. induction names as [|name names IH]; intros sub Hne Hle; [done|].
  simpl. destruct names as [|name' names].
  - simpl. by apply try_send_1_le.
  - apply IH; [done|]. simpl. by rewrite try_send_1_le.
Qed.

Lemma markDirty_subs_lookup name s sub :
  subs (markDirty name s) !! sub =
    if decide (sub ∈ subscribers s)
    then Subscriber_MarkDirty name <$> subs s !! sub
    else subs s !! sub.
Proof.
  unfold markDirty. simpl.
  assert (NoDup (elements (subscribers s))) as Hnd by apply NoDup_elements.
  assert (∀ l : list nat, NoDup l →
    foldr (λ p h, alter (Subscriber_MarkDirty name) p h) (subs s) l !! sub =
      if decide (sub ∈ l) then Subscriber_MarkDirty name <$> subs s !! sub
      else subs s !! sub) as Hl.
  { induction l as [|p l IH]; intros Hl; simpl.
    - done.
    - apply NoDup_cons in Hl as [Hp Hl]. specialize (IH Hl).
      destruct (decide (p = sub)) as [->|Hne].
      + rewrite lookup_alter_eq, IH.
        rewrite decide_False by done. by rewrite decide_True by set_solver.
      + rewrite lookup_alter_ne by done. rewrite IH.
        destruct (decide (sub ∈ l)).
        * by rewrite decide_True by set_solver.
        * by rewrite decide_False by set_solver. }
  rewrite Hl by done.
  destruct (decide (sub ∈ subscribers s)).
  - by rewrite decide_True by set_solver.
  - by rewrite decide_False by set_solver.
Qed.

Lemma markDirty_subscribers name s : subscribers (markDirty name s) = subscribers s.
Proof. done. Qed.

Lemma store_mark_all_subscribers names s :
  subscribers (store_mark_all names s) = subscribers s.
Proof. revert s. induction names as [|n names IH]; intros s; simpl; [done|]. by rewrite IH. Qed.

Lemma store_mark_all_lookup names s sub o :
  sub ∈ subscribers s → subs s !! sub = Some o →
  subs (store_mark_all names s) !! sub = Some (mark_all names o).
Proof.
  revert s o. induction names as [|n names IH]; intros s o Hin Hsub; simpl; [done|].
  apply IH; [done|]. unfold Store_MarkDirty.
  rewrite markDirty_subs_lookup, decide_True by done. by rewrite Hsub.
Qed.

(** C9. [Store.markDirty] reaches every registered subscriber: the name is
    added to its dirty set and one value is posted to its notify channel
    unless one is queued already.  After any sequence of [MarkDirty] calls,
    [DirtySet] returns what was dirty before together with the marked
    names, that is, exactly the marked names for a subscriber whose set was
    empty, and [DirtySet] called again returns the empty set. *)
Theorem markDirty_then_DirtySet (s : Store) (sub : nat) (o : Subscriber)
    (names : list string) :
  sub ∈ subscribers s →
  subs s !! sub = Some o →
  (∀ name,
     subs (markDirty name s) !! sub =
       Some {| notifyCh := if decide (notifyCh o = 0%nat) then 1%nat else notifyCh o;
               dirtySet := {[name]} ∪ dirtySet o |}) ∧
  (names ≠ [] → (notifyCh o ≤ 1)%nat →
     notifyCh <$> subs (store_mark_all names s) !! sub = Some 1%nat) ∧
  ∃ s1 s2,
    DirtySet_at sub (store_mark_all names s)
      = Some (dirtySet o ∪ list_to_set names, s1) ∧
    (dirtySet o = ∅ →
       DirtySet_at sub (store_mark_all names s) = Some (list_to_set names, s1)) ∧
    DirtySet_at sub s1 = Some (∅, s2).
Proof.
  intros Hin Hsub. split; [|split].
  - intros name. rewrite markDirty_subs_lookup, decide_True, Hsub by done.
    simpl. unfold Subscriber_MarkDirty. rewrite try_send_1.
    do 2 f_equal. destruct (notifyCh o); by case_decide.
  - intros Hne Hle.
    rewrite (store_mark_all_lookup names s sub o) by done. simpl.
    by rewrite mark_all_notifyCh.
  - pose proof (store_mark_all_lookup names s sub o Hin Hsub) as Hm.
    unfold DirtySet_at. rewrite Hm. simpl. rewrite mark_all_dirtySet.
    eexists _, _. split; [reflexivity|]. split.
    + intros ->. by rewrite union_empty_l_L.
    + simpl. rewrite lookup_insert_eq. simpl. reflexivity.
Qed.

Lemma markDirty_then_DirtySet_witness :
  let s := (Subscribe (NewStore "/data" true)).2 in
  ∃ s1 s2,
    DirtySet_at 0%nat (store_mark_all ["db1"; "db2"; "db1"] s)
      = Some (list_to_set ["db1"; "db2"; "db1"], s1) ∧
    DirtySet_at 0%nat s1 = Some (∅, s2).
Proof.
  intros s.
  destruct (markDirty_then_DirtySet s 0%nat newSubscriber ["db1"; "db2"; "db1"])
    as (_ & _ & s1 & s2 & _ & H1 & H2).
  - vm_compute. reflexivity.
  - vm_compute. reflexivity.
  - exists s1, s2. split; [apply H1; reflexivity | exact H2].
Defined.

(** ** Creating and dropping databases *)

(** C6. [CreateDB] of a name that is in the DB map returns
    [ErrDatabaseExists], and [DropDB] of a name that is not returns
    [ErrDatabaseNotFound]; in both cases the store, and with it the DB map,
    is left as it was. *)
Theorem CreateDB_exists_DropDB_not_found (s : Store) (name : string) :
  (is_Some (dbs s !! name) →
     ∀ env, CreateDB env name s = (inl ErrDatabaseExists, s)) ∧
  (dbs s !! name = None →
     ∀ removeAll, DropDB removeAll name s = (Some ErrDatabaseNotFound, s)).
Proof.
  split.
  - intros [db Hdb] env. unfold CreateDB. by rewrite Hdb.
  - intros Hdb removeAll. unfold DropDB. by rewrite Hdb.
Qed.

Lemma CreateDB_exists_DropDB_not_found_witness :
  let s := (CreateDB (mkCreateEnv None None None) "db" (NewStore "/data" true)).2 in
  CreateDB (mkCreateEnv None None None) "db" s = (inl ErrDatabaseExists, s) ∧
  DropDB None "other" s = (Some ErrDatabaseNotFound, s).
Proof.
  intros s.
  destruct (CreateDB_exists_DropDB_not_found s "db") as [Hc _].
  destruct (CreateDB_exists_DropDB_not_found s "other") as [_ Hd].
  split.
  - apply Hc. vm_compute. eexists. reflexivity.
  - apply Hd. vm_compute. reflexivity.
Defined.

(** A database that is created is in the map afterwards, and one that is
    dropped is not. *)
Lemma CreateDB_new (env : CreateEnv) (s : Store) (name : string) :
  dbs s !! name = None →
  env_MkdirAll env = None → env_CreateFile env = None → env_Open env = None →
  ∃ db, (CreateDB env name s).1 = inr db ∧
        dbs (CreateDB env name s).2 !! name = Some db.
Proof.
  intros Hdb H1 H2 H3. unfold CreateDB. rewrite Hdb, H1, H2, H3. simpl.
  eexists. split; [reflexivity|]. apply lookup_insert_eq.
Qed.

Lemma DropDB_present (s : Store) (name : string) :
  is_Some (dbs s !! name) →
  (DropDB None name s).1 = None ∧ dbs (DropDB None name s).2 !! name = None.
Proof.
  intros [db Hdb]. unfold DropDB. rewrite Hdb. simpl. split; [done|].
  apply lookup_delete_eq.
Qed.

(** A dropped database that does not exist is skipped by the stream. *)
Lemma processDropDBStreamFrame_unknown (s : Store) (name : string) r :
  dbs s !! name = None → processDropDBStreamFrame r name s = (None, s).
Proof. intros Hdb. unfold processDropDBStreamFrame, DropDB. by rewrite Hdb. Qed.

(** ** Lease renewal *)

Lemma wrap_int64_id (z : Z) : - 2 ^ 63 ≤ z < 2 ^ 63 → wrap_int64 z = z.
Proof. intros Hz. unfold wrap_int64. rewrite Z.mod_small; lia. Qed.

(** Adding the timeout to an elapsed time does not overflow unless the
    elapsed time is within a second of the largest duration. *)
Lemma since_plus_timeout (since : Z) :
  0 ≤ since ≤ maxDuration - timeout → wrap_int64 (since + timeout) = since + timeout.
Proof.
  unfold maxDuration, timeout, Second. intros Hs. apply wrap_int64_id. lia.
Qed.

(** C7. When [Renew] fails with an error other than [ErrLeaseExpired],
    the loop goes round again with a wait of one second exactly when
    [time.Since(lease.RenewedAt()) + 1s ≤ lease.TTL()] (in [int64]
    nanoseconds), and otherwise sleeps and returns [ErrLeaseExpired]; when
    [Renew] returns [ErrLeaseExpired] the loop returns it at once; after a
    successful renewal the wait is [TTL/2] again. *)
Theorem renewal_retry_policy (ttl waitDur since : Z) (e : error) (evs : list event) :
  is_ErrLeaseExpired e = false →
  (on_timer ttl (Some e) since = Retry (1 * Second)
     ↔ wrap_int64 (since + 1 * Second) ≤ ttl) ∧
  (on_timer ttl (Some e) since = Stop (Some ErrLeaseExpired) [ActSleep (1 * Second)]
     ↔ wrap_int64 (since + 1 * Second) > ttl) ∧
  (wrap_int64 (since + 1 * Second) ≤ ttl →
     lease_loop ttl waitDur (EvTimer (Some e) since :: evs)
       = ((lease_loop ttl (1 * Second) evs).1,
          ActWait waitDur :: (lease_loop ttl (1 * Second) evs).2)) ∧
  (wrap_int64 (since + 1 * Second) > ttl →
     lease_loop ttl waitDur (EvTimer (Some e) since :: evs)
       = (Returned (Some ErrLeaseExpired) false,
          [ActWait waitDur; ActSleep (1 * Second)])) ∧
  lease_loop ttl waitDur (EvTimer (Some ErrLeaseExpired) since :: evs)
    = (Returned (Some ErrLeaseExpired) false, [ActWait waitDur]) ∧
  lease_loop ttl waitDur (EvTimer None since :: evs)
    = ((lease_loop ttl (Z.quot ttl 2) evs).1,
       ActWait waitDur :: (lease_loop ttl (Z.quot ttl 2) evs).2).
Proof.
  intros He.
  assert (on_timer ttl (Some e) since =
            if decide (wrap_int64 (since + 1 * Second) > ttl)
            then Stop (Some ErrLeaseExpired) [ActSleep (1 * Second)]
            else Retry (1 * Second)) as Hon.
  { unfold on_timer, timeout. rewrite He. by rewrite Z.mul_1_l. }
  split; [|split; [|split; [|split; [|split]]]].
  - rewrite Hon. case_decide; split; (done || lia).
  - rewrite Hon. case_decide; split; (done || lia).
  - intros Hle. cbn [lease_loop]. rewrite Hon. case_decide; [lia | done].
  - intros Hgt. cbn [lease_loop]. rewrite Hon. by case_decide.
  - reflexivity.
  - reflexivity.
Qed.

Lemma renewal_retry_policy_witness :
  lease_loop (10 * Second) (5 * Second)
      [EvTimer (Some (ErrExternal "connection refused")) (8 * Second)]
    = (Blocked (1 * Second), [ActWait (5 * Second)]) ∧
  lease_loop (10 * Second) (5 * Second)
      [EvTimer (Some (ErrExternal "connection refused")) (9 * Second + 1)]
    = (Returned (Some ErrLeaseExpired) false,
       [ActWait (5 * Second); ActSleep (1 * Second)]).
Proof.
  split.
  - refine (proj1 (proj2 (proj2 (renewal_retry_policy (10 * Second) (5 * Second)
        (8 * Second) (ErrExternal "connection refused") [] _))) _).
    + reflexivity.
    + vm_compute. discriminate.
  - refine (proj1 (proj2 (proj2 (proj2 (renewal_retry_policy (10 * Second) (5 * Second)
        (9 * Second + 1) (ErrExternal "connection refused") [] _)))) _).
    + reflexivity.
    + vm_compute. reflexivity.
Defined.

(** With a lease that keeps failing to renew, the waits are [TTL/2] and
    then one second each, and the function ends with [ErrLeaseExpired]. *)
Example lease_loop_retries :
  lease_loop (10 * Second) (Z.quot (10 * Second) 2)
    [EvTimer (Some (ErrExternal "timeout")) (5 * Second);
     EvTimer (Some (ErrExternal "timeout")) (6 * Second);
     EvTimer None 0;
     EvTimer (Some (ErrExternal "timeout")) (10 * Second)]
  = (Returned (Some ErrLeaseExpired) false,
     [ActWait (5 * Second); ActWait (1 * Second); ActWait (1 * Second);
      ActWait (5 * Second); ActSleep (1 * Second)]).
Proof. vm_compute. reflexivity. Qed.

(** ** Retention *)

Section RetentionProperties.
Variable f : Z → DB → option error * DB.

Lemma retention_iter_eq (minTime : Z) (e : option error) (m : gmap string DB)
    (k : string) (db : DB) :
  retention_iter f minTime (e, m) (k, db)
    = (match e with
       | None => Some (wrapf ("cannot enforce retention on db "
                                +:+ db_name (f minTime db).2) (f minTime db).1)
       | Some err => Some err
       end, <[k := (f minTime db).2]> m).
Proof. unfold retention_iter. simpl. by destruct (f minTime db). Qed.

Lemma retention_loop_lookup (minTime : Z) (l : list (string * DB)) :
  ∀ (e : option error) (m : gmap string DB),
  NoDup l.*1 →
  (∀ k db, (k, db) ∈ l →
     (foldl (retention_iter f minTime) (e, m) l).2 !! k = Some (f minTime db).2) ∧
  (∀ k, k ∉ l.*1 →
     (foldl (retention_iter f minTime) (e, m) l).2 !! k = m !! k).
Proof.
  induction l as [|[k0 db0] l IH]; intros e m Hnd.
  - split; [intros k db Hin; by apply elem_of_nil in Hin | done].
  - rewrite fmap_cons in Hnd. apply NoDup_cons in Hnd as [Hk0 Hnd].
    cbn [foldl]. rewrite retention_iter_eq.
    match goal with |- context [foldl _ (?e', ?m') l] =>
      destruct (IH e' m' Hnd) as [IH1 IH2] end.
    split.
    + intros k db [Heq|Hin]%elem_of_cons.
      * injection Heq as -> ->. rewrite IH2 by done.
        by rewrite lookup_insert_eq.
      * by apply IH1.
    + intros k Hk. rewrite fmap_cons in Hk.
      apply not_elem_of_cons in Hk as [Hne Hk].
      rewrite IH2 by done. by rewrite lookup_insert_ne.
Qed.

(** The per-DB call is made on every database of the store, whatever
    the calls before it returned. *)
Lemma Store_EnforceRetention_every_db (now : Z) (s : Store) :
  Retention s > 0 →
  dbs (Store_EnforceRetention f now s).2
    = (λ db, (f (now - Retention s) db).2) <$> dbs s.
Proof.
  intros Hr. unfold Store_EnforceRetention. rewrite decide_False by lia.
  unfold retention_loop, DBs.
  destruct (retention_loop_lookup (now - Retention s) (map_to_list (dbs s))
              None (dbs s)) as [H1 H2].
  { apply NoDup_fst_map_to_list. }
  destruct (foldl _ _ _) as [err m] eqn:Hfold. simpl in *.
  apply map_eq. intros k. rewrite lookup_fmap.
  destruct (dbs s !! k) as [db|] eqn:Hk; simpl.
  - apply H1. by apply elem_of_map_to_list.
  - rewrite H2; [done|]. intros [[k' db] [-> Hin]]%list_elem_of_fmap.
    apply elem_of_map_to_list in Hin. simpl in *. congruence.
Qed.

(** The named result of the loop is assigned at the first database,
    whether or not its call failed, and kept from then on. *)
Lemma retention_loop_err (minTime : Z) (k : string) (db : DB)
    (l : list (string * DB)) (m : gmap string DB) :
  (retention_loop f minTime ((k, db) :: l) m).1
    = Some (wrapf ("cannot enforce retention on db " +:+ db_name (f minTime db).2)
              (f minTime db).1).
Proof.
  unfold retention_loop. cbn [foldl]. rewrite retention_iter_eq.
  generalize (<[k:=(f minTime db).2]> m).
  generalize (wrapf ("cannot enforce retention on db " +:+ db_name (f minTime db).2)
                (f minTime db).1).
  induction l as [|[k' db'] l IH]; intros err m'; [done|].
  cbn [foldl]. rewrite retention_iter_eq. apply IH.
Qed.

(** What the function returns is nil in every case. *)
Lemma Store_EnforceRetention_nil (now : Z) (s : Store) :
  (Store_EnforceRetention f now s).1 = None.
Proof.
  unfold Store_EnforceRetention. case_decide; [done|].
  by destruct (retention_loop _ _ _ _).
Qed.
(** The source and the specification do the same to the databases. *)
Lemma retention_iter_spec_eq (minTime : Z) (e : option error) (m : gmap string DB)
    (k : string) (db : DB) :
  retention_iter_spec f minTime (e, m) (k, db)
    = (match e with
       | None => Errorf ("cannot enforce retention on db "
                           +:+ db_name (f minTime db).2) <$> (f minTime db).1
       | Some err => Some err
       end, <[k := (f minTime db).2]> m).
Proof. unfold retention_iter_spec. simpl. by destruct (f minTime db). Qed.

Lemma retention_fold_spec_dbs (minTime : Z) (l : list (string * DB)) :
  ∀ (e e' : option error) (m : gmap string DB),
  (foldl (retention_iter_spec f minTime) (e', m) l).2
    = (foldl (retention_iter f minTime) (e, m) l).2.
Proof.
  induction l as [|[k db] l IH]; intros e e' m; [done|].
  cbn [foldl]. rewrite retention_iter_eq, retention_iter_spec_eq. apply IH.
Qed.

Lemma Store_EnforceRetention_spec_store (now : Z) (s : Store) :
  (Store_EnforceRetention_spec f now s).2 = (Store_EnforceRetention f now s).2.
Proof.
  unfold Store_EnforceRetention_spec, Store_EnforceRetention, retention_loop.
  case_decide; [done|].
  pose proof (retention_fold_spec_dbs (now - Retention s) (DBs s) None None (dbs s))
    as Heq.
  destruct (foldl (retention_iter_spec _ _) _ _), (foldl (retention_iter _ _) _ _).
  simpl in *. by subst.
Qed.

Lemma retention_fold_spec_nil (minTime : Z) (l : list (string * DB)) :
  ∀ (e : option error) (m : gmap string DB),
  (foldl (retention_iter_spec f minTime) (e, m) l).1 = None ↔
  e = None ∧ ∀ k db, (k, db) ∈ l → (f minTime db).1 = None.
Proof.
  induction l as [|[k0 db0] l IH]; intros e m.
  - simpl. split; [|by intros [-> _]].
    intros ->. split; [done|]. intros k db Hin. by apply elem_of_nil in Hin.
  - cbn [foldl]. rewrite retention_iter_spec_eq, IH. split.
    + intros [He Hall]. destruct e as [err|]; [done|]. split; [done|].
      intros k db [[= -> ->]|Hin]%elem_of_cons; [|by eauto].
      by destruct (f minTime db0).1.
    + intros [-> Hall]. split.
      * rewrite (Hall k0 db0) by left. done.
      * intros k db Hin. apply (Hall k db). by right.
Qed.

(** What the specification asks for: nil exactly when every per-DB call
    succeeded.  The source returns nil in every case
    ([Store_EnforceRetention_nil]). *)
Lemma Store_EnforceRetention_spec_nil (now : Z) (s : Store) :
  Retention s > 0 →
  (Store_EnforceRetention_spec f now s).1 = None ↔
  ∀ k db, dbs s !! k = Some db → (f (now - Retention s) db).1 = None.
Proof.
  intros Hr. unfold Store_EnforceRetention_spec. rewrite decide_False by lia.
  pose proof (retention_fold_spec_nil (now - Retention s) (DBs s) None (dbs s))
    as Hnil.
  destruct (foldl _ _ _) as [err m]. simpl in *. rewrite Hnil. unfold DBs.
  split.
  - intros [_ Hall] k db Hk. apply (Hall k db). by apply elem_of_map_to_list.
  - intros Hall. split; [done|]. intros k db Hk. apply (Hall k db).
    by apply elem_of_map_to_list.
Qed.
End RetentionProperties.

(** C1. With [Retention > 0], one database and a per-DB call that fails,
    the per-DB call is made and its error is stored in the named result of
    the loop, but [Store.EnforceRetention] returns nil: the error is lost
    by the final [return nil], where the function as the specification
    words it returns the error. *)
Theorem EnforceRetention_loses_the_error :
  let s := (CreateDB (mkCreateEnv None None None) "db" (NewStore "/data" true)).2 in
  let f := λ (_ : Z) (db : DB), (Some (ErrExternal "remove ltx file"), db) in
  Retention s > 0 ∧
  (retention_loop f (1000 * Minute - Retention s) (DBs s) (dbs s)).1
    = Some (Errorf "cannot enforce retention on db db" (ErrExternal "remove ltx file")) ∧
  (Store_EnforceRetention f (1000 * Minute) s).1 = None ∧
  (Store_EnforceRetention_spec f (1000 * Minute) s).1
    = Some (Errorf "cannot enforce retention on db db" (ErrExternal "remove ltx file")).
Proof. vm_compute. repeat split. Qed.

(** ** Operations on databases and subscribers leave the rest alone *)

Lemma control_markDirty name s : control (markDirty name s) = control s.
Proof. done. Qed.

Lemma control_CreateDB env name s : control (CreateDB env name s).2 = control s.
Proof. unfold CreateDB. by repeat case_match. Qed.

Lemma control_CreateDBIfNotExists env name s :
  control (CreateDBIfNotExists env name s).2 = control s.
Proof. unfold CreateDBIfNotExists. by repeat case_match. Qed.

Lemma control_DropDB r name s : control (DropDB r name s).2 = control s.
Proof. unfold DropDB. by repeat case_match. Qed.

Lemma control_processDropDBStreamFrame r name s :
  control (processDropDBStreamFrame r name s).2 = control s.
Proof.
  unfold processDropDBStreamFrame.
  pose proof (control_DropDB r name s) as H.
  destruct (DropDB r name s) as [[e|] s']; simpl in *; [|done].
  by case_match.
Qed.

Lemma control_Store_EnforceRetention f now s :
  control (Store_EnforceRetention f now s).2 = control s.
Proof.
  unfold Store_EnforceRetention. case_decide; [done|].
  by destruct (retention_loop _ _ _ _).
Qed.

Lemma control_processLTXStreamFrame env name src s :
  control (processLTXStreamFrame env name src s).2 = control s.
Proof.
  unfold processLTXStreamFrame.
  pose proof (control_CreateDBIfNotExists (env_create env) name s) as H.
  destruct (CreateDBIfNotExists _ _ _) as [[e|db] s1]; simpl in *; [done|].
  by repeat case_match.
Qed.

Lemma control_DirtySet_at sub s d s' :
  DirtySet_at sub s = Some (d, s') → control s' = control s.
Proof.
  unfold DirtySet_at. destruct (subs s !! sub); simpl; [|done].
  by intros [= <- <-].
Qed.

(** A step that is not one of [setIsPrimary], [markReady], [Demote] or a
    cancellation leaves identity, status and channels as they are. *)
Lemma store_step_control s s' :
  store_step s s' →
  control s' = control s ∨
  (∃ v, setIsPrimary v s = Some s') ∨ markReady s = Some s' ∨
  Demote s = Some s' ∨ (∃ c e, s' = cancel_ctx c e s).
Proof.
  destruct 1; eauto 6;
    try (by do 4 right; eexists _, _);
    left; first [ done | eauto using control_CreateDB, control_CreateDBIfNotExists,
      control_DropDB, control_processDropDBStreamFrame, control_DirtySet_at,
      control_Store_EnforceRetention, control_processLTXStreamFrame ].
Qed.

(** ** Channels *)

(** Reading a field of a store that was built by the setters. *)
Ltac store_simpl :=
  cbn [path id dbs subscribers isPrimary primaryCh candidate readyCh demoteCh
       DemoteDelay Retention chans ctxs subs
       set_id set_dbs set_subscribers set_isPrimary set_primaryCh set_demoteCh
       set_chans set_ctxs set_subs] in *.

Lemma make_chan_fresh (h : gmap nat bool) : h !! (make_chan h).1 = None.
Proof. unfold make_chan. simpl. apply not_elem_of_dom, is_fresh. Qed.

Lemma make_chan_lookup (h : gmap nat bool) (c : nat) :
  (make_chan h).2 !! c = if decide (c = (make_chan h).1) then Some false else h !! c.
Proof.
  unfold make_chan. simpl. case_decide as Hc.
  - subst. apply lookup_insert_eq.
  - by rewrite lookup_insert_ne.
Qed.

Lemma make_chan_old (h : gmap nat bool) (c : nat) :
  is_Some (h !! c) → (make_chan h).2 !! c = h !! c.
Proof.
  intros Hc. rewrite make_chan_lookup. case_decide as Heq; [|done].
  subst. rewrite make_chan_fresh in Hc. by destruct Hc.
Qed.

Lemma close_chan_lookup (h h' : gmap nat bool) (c c' : nat) :
  close_chan c h = Some h' →
  h !! c = Some false ∧
  h' !! c' = if decide (c' = c) then Some true else h !! c'.
Proof.
  unfold close_chan. destruct (h !! c) as [[]|] eqn:Hc; intros [= <-].
  split; [done|]. case_decide.
  - subst. apply lookup_insert_eq.
  - by rewrite lookup_insert_ne.
Qed.

Lemma close_chan_open (h : gmap nat bool) (c : nat) :
  h !! c = Some false → close_chan c h = Some (<[c := true]> h).
Proof. intros Hc. unfold close_chan. by rewrite Hc. Qed.

Lemma chan_closed_make_chan (h : gmap nat bool) (c : nat) :
  chan_closed h c = true → chan_closed (make_chan h).2 c = true.
Proof.
  unfold chan_closed. destruct (h !! c) as [[]|] eqn:Hc; try done.
  intros _. rewrite make_chan_old, Hc; eauto.
Qed.

Lemma chan_closed_close_chan (h h' : gmap nat bool) (c c' : nat) :
  close_chan c h = Some h' → chan_closed h c' = true → chan_closed h' c' = true.
Proof.
  intros Hcl. unfold chan_closed.
  destruct (close_chan_lookup h h' c c' Hcl) as [_ ->]. by case_decide.
Qed.

(** ** The channels of a store stay well formed *)


Lemma setIsPrimary_eq (v : bool) (s : Store) :
  chans_wf s →
  setIsPrimary v s = Some
    (if decide (isPrimary s = v) then set_isPrimary v s
     else if v then
       set_isPrimary true (set_primaryCh (make_chan (chans s)).1
                             (set_chans (make_chan (chans s)).2 s))
     else set_isPrimary false (set_chans (<[primaryCh s := true]> (chans s)) s)).
Proof.
  intros Hwf. unfold setIsPrimary.
  destruct (decide (isPrimary s = v)) as [Heq|Hne].
  - rewrite decide_False by (by intros ?). done.
  - rewrite decide_True by done. destruct v; [done|].
    rewrite close_chan_open; [done|].
    rewrite (wf_primaryCh s Hwf). by destruct (isPrimary s).
Qed.

Lemma chans_wf_setIsPrimary (v : bool) (s s' : Store) :
  chans_wf s → setIsPrimary v s = Some s' → chans_wf s'.
Proof.
  intros Hwf. rewrite setIsPrimary_eq by done. intros [= <-].
  destruct Hwf as [Hp Hr Hd Hpr Hpd Hrd].
  pose proof (make_chan_fresh (chans s)) as Hfresh.
  assert (readyCh s ≠ (make_chan (chans s)).1) as Hfr.
  { intros Heq. rewrite Heq, Hfresh in Hr. by destruct Hr. }
  assert (demoteCh s ≠ (make_chan (chans s)).1) as Hfd.
  { intros Heq. rewrite Heq, Hfresh in Hd. done. }
  destruct (decide (isPrimary s = v)) as [<-|Hne]; [by split|].
  unfold make_chan in *. cbn [fst snd] in *.
  destruct v; split; store_simpl; try done.
  - apply lookup_insert_eq.
  - by rewrite lookup_insert_ne.
  - by rewrite lookup_insert_ne.
  - apply lookup_insert_eq.
  - by rewrite lookup_insert_ne.
  - by rewrite lookup_insert_ne.
Qed.

Lemma markReady_eq (s : Store) :
  chans_wf s →
  markReady s = Some
    (if chan_closed (chans s) (readyCh s) then s
     else set_chans (<[readyCh s := true]> (chans s)) s).
Proof.
  intros Hwf. unfold markReady, chan_closed.
  destruct (wf_readyCh s Hwf) as [[] Hr]; rewrite Hr; [done|].
  by rewrite close_chan_open.
Qed.

Lemma chans_wf_markReady (s s' : Store) :
  chans_wf s → markReady s = Some s' → chans_wf s'.
Proof.
  intros Hwf. rewrite markReady_eq by done. intros [= <-].
  destruct (chan_closed _ _); [done|].
  destruct Hwf as [Hp Hr Hd Hpr Hpd Hrd]. split; store_simpl; try done.
  - by rewrite lookup_insert_ne.
  - rewrite lookup_insert_eq. eauto.
  - by rewrite lookup_insert_ne.
Qed.








(** ** Closed channels stay closed, cancelled contexts stay cancelled *)

Lemma chan_closed_setIsPrimary (v : bool) (s s' : Store) (c : nat) :
  setIsPrimary v s = Some s' →
  chan_closed (chans s) c = true → chan_closed (chans s') c = true.
Proof.
  unfold setIsPrimary. case_decide; [|by intros [= <-]].
  destruct v; simpl.
  - intros [= <-]. simpl. apply chan_closed_make_chan.
  - destruct (close_chan _ _) as [h|] eqn:Hcl; simpl; [|done].
    intros [= <-]. simpl. eauto using chan_closed_close_chan.
Qed.

Lemma chan_closed_markReady (s s' : Store) (c : nat) :
  markReady s = Some s' →
  chan_closed (chans s) c = true → chan_closed (chans s') c = true.
Proof.
  unfold markReady. destruct (chan_closed (chans s) (readyCh s)); [by intros [= <-]|].
  destruct (close_chan _ _) as [h|] eqn:Hcl; simpl; [|done].
  intros [= <-]. simpl. eauto using chan_closed_close_chan.
Qed.

Lemma chan_closed_Demote (s s' : Store) (c : nat) :
  Demote s = Some s' →
  chan_closed (chans s) c = true → chan_closed (chans s') c = true.
Proof.
  unfold Demote. destruct (close_chan _ _) as [h|] eqn:Hcl; simpl; [|done].
  intros [= <-]. simpl. intros Hc. apply chan_closed_make_chan.
  eauto using chan_closed_close_chan.
Qed.

Lemma ctx_Err_cancel_ctx (c : nat) (e : error) (s : Store) (p : nat) :
  is_Some (ctx_Err s p) → is_Some (ctx_Err (cancel_ctx c e s) p).
Proof.
  unfold cancel_ctx. destruct (ctx_Err s c) eqn:Hc; [done|].
  unfold ctx_Err in *. simpl. intros Hp.
  destruct (decide (p = c)) as [->|Hne].
  - rewrite lookup_insert_eq. eauto.
  - by rewrite lookup_insert_ne.
Qed.

Lemma store_step_mono (s s' : Store) (c p : nat) :
  store_step s s' →
  (chan_closed (chans s) c = true → chan_closed (chans s') c = true) ∧
  (is_Some (ctx_Err s p) → is_Some (ctx_Err s' p)).
Proof.
  intros Hstep.
  destruct (store_step_control s s' Hstep)
    as [Hc|[[v Hv]|[Hr|[Hd|(c' & e & ->)]]]].
  - unfold control in Hc. injection Hc as _ _ _ _ _ _ _ _ _ Hch Hcx.
    unfold ctx_Err. by rewrite Hch, Hcx.
  - split; [eauto using chan_closed_setIsPrimary|].
    revert Hv. unfold setIsPrimary, ctx_Err. case_decide; [|by intros [= <-]].
    destruct v; simpl; [by intros [= <-]|].
    destruct (close_chan _ _); simpl; [|done]. by intros [= <-].
  - split; [eauto using chan_closed_markReady|].
    revert Hr. unfold markReady, ctx_Err.
    destruct (chan_closed _ _); [by intros [= <-]|].
    destruct (close_chan _ _); simpl; [|done]. by intros [= <-].
  - split; [eauto using chan_closed_Demote|].
    revert Hd. unfold Demote, ctx_Err.
    destruct (close_chan _ _); simpl; [|done]. by intros [= <-].
  - split; [|apply ctx_Err_cancel_ctx].
    unfold cancel_ctx. by destruct (ctx_Err s c').
Qed.

(** ** primaryCtx *)

(** What holds of a [primaryCtx] built from [parent] and [ch] at every
    moment of its life. *)
Lemma primaryCtx_invariant (s0 : Store) (parent ch : nat) (x : Store * primaryCtx) :
  rtc ctx_step (s0, newPrimaryCtx parent ch) x →
  pc_parent x.2 = parent ∧ pc_primaryCh x.2 = ch ∧
  (pc_done x.2 = true →
     chan_closed (chans x.1) ch = true ∨ is_Some (ctx_Err x.1 parent)) ∧
  (pc_done x.2 = false → pc_watching x.2 = true).
Proof.
  revert x. apply rtc_ind_r.
  - simpl. by repeat split.
  - intros [s c] [s' c'] _ Hstep (Hp & Hc & Hd & Hw). simpl in *.
    inversion Hstep as [? ? ? Hs|? ? ? Hwatch]; subst.
    + repeat split; try done.
      intros Hdone.
      destruct (store_step_mono s s' (pc_primaryCh c') (pc_parent c') Hs)
        as [Hm1 Hm2].
      destruct (Hd Hdone); eauto.
    + unfold watcher_step in Hwatch.
      destruct (pc_watching c) eqn:Hwc; [|done].
      destruct (chan_closed _ _ || parent_done _ _) eqn:Hen; [|done].
      injection Hwatch as <-. simpl. repeat split; try done.
      intros _. apply orb_true_iff in Hen as [Hen|Hen]; [by left|right].
      unfold parent_done in Hen. by apply bool_decide_eq_true in Hen.
Qed.

(** Once closed, [done] stays closed. *)
Lemma primaryCtx_Done_stable (x y : Store * primaryCtx) :
  rtc ctx_step x y →
  primaryCtx_Done x.2 = true → primaryCtx_Done y.2 = true.
Proof.
  induction 1 as [|x y z Hstep _ IH]; [done|].
  intros Hx. apply IH. inversion Hstep as [|? ? ? Hwatch]; subst; simpl in *; [done|].
  unfold watcher_step in Hwatch. repeat case_match; try done.
  by injection Hwatch as <-.
Qed.

(** C8. For a [primaryCtx] built from a parent and a primary channel, at
    any later moment: [Err()] is nil while the primary channel is open and
    the parent is not cancelled, [ErrLeaseExpired] once the primary channel
    is closed, and [parent.Err()] while the primary channel is open;
    [Done()] is closed only if the parent is done or the primary channel is
    closed, in either of these cases the goroutine of the context is free
    to close it (if it has not yet), and it stays closed. *)
Theorem primaryCtx_Err_Done (s0 s : Store) (parent ch : nat) (c : primaryCtx) :
  rtc ctx_step (s0, newPrimaryCtx parent ch) (s, c) →
  (chan_closed (chans s) ch = false → ctx_Err s parent = None →
     primaryCtx_Err s c = None) ∧
  (chan_closed (chans s) ch = true → primaryCtx_Err s c = Some ErrLeaseExpired) ∧
  (chan_closed (chans s) ch = false → primaryCtx_Err s c = ctx_Err s parent) ∧
  (primaryCtx_Done c = true →
     chan_closed (chans s) ch = true ∨ is_Some (ctx_Err s parent)) ∧
  (chan_closed (chans s) ch = true ∨ is_Some (ctx_Err s parent) →
     primaryCtx_Done c = true ∨
     ∃ c', watcher_step s c = Some c' ∧ primaryCtx_Done c' = true) ∧
  (∀ s' c', rtc ctx_step (s, c) (s', c') →
     primaryCtx_Done c = true → primaryCtx_Done c' = true).
Proof.
  intros Hrtc.
  destruct (primaryCtx_invariant s0 parent ch (s, c) Hrtc) as (Hp & Hc & Hd & Hw).
  simpl in Hp, Hc, Hd, Hw.
  unfold primaryCtx_Err, primaryCtx_Done. rewrite Hp, Hc.
  split; [|split; [|split; [|split; [|split]]]].
  - by intros -> ->.
  - by intros ->.
  - by intros ->.
  - done.
  - intros Hen. destruct (pc_done c) eqn:Hdone; [by left|right].
    unfold watcher_step, parent_done. rewrite (Hw eq_refl), Hp, Hc.
    destruct Hen as [->|Hen]; simpl; [by eexists|].
    rewrite (bool_decide_eq_true_2 _ Hen), orb_true_r. by eexists.
  - intros s' c' Hrun. apply (primaryCtx_Done_stable (s, c) (s', c') Hrun).
Qed.

Lemma primaryCtx_Err_Done_witness :
  let s := default (NewStore "/data" true) (setIsPrimary true (NewStore "/data" true)) in
  let c := PrimaryCtx s 0%nat in
  primaryCtx_Err s c = None ∧
  primaryCtx_Err (default s (setIsPrimary false s)) c = Some ErrLeaseExpired ∧
  primaryCtx_Err (cancel_ctx 0%nat ErrStoreClosed s) c = Some ErrStoreClosed.
Proof.
  intros s c. split; [|split].
  - refine (proj1 (primaryCtx_Err_Done s s 0%nat (primaryCh s) c _) _ _).
    + reflexivity.
    + vm_compute. reflexivity.
    + vm_compute. reflexivity.
  - refine (proj1 (proj2 (primaryCtx_Err_Done s (default s (setIsPrimary false s))
                            0%nat (primaryCh s) c _)) _).
    + apply rtc_once. apply ctx_step_store. apply (step_setIsPrimary false).
      vm_compute. reflexivity.
    + vm_compute. reflexivity.
  - etrans.
    + refine (proj1 (proj2 (proj2 (primaryCtx_Err_Done s
                (cancel_ctx 0%nat ErrStoreClosed s) 0%nat (primaryCh s) c _))) _).
      * apply rtc_once. apply ctx_step_store. apply step_cancel_ctx.
      * vm_compute. reflexivity.
    + vm_compute. reflexivity.
Defined.

(** ** The primary channel *)



(** Leaving [monitorLeaseAsPrimary] closes the primary channel that was
    opened on entry, so every [PrimaryCtx] handed out in between expires. *)
Lemma monitorLeaseAsPrimary_closes (ttl : Z) (evs : list event) (s s' : Store)
    (err : option error) (demoted : bool) (acts : list action) :
  chans_wf s → isPrimary s = false →
  monitorLeaseAsPrimary ttl evs s = Some (Returned err demoted, acts, s') →
  isPrimary s' = false ∧ chan_closed (chans s') (primaryCh s') = true ∧
  primaryCh s' ≠ primaryCh s.
Proof.
  intros Hwf Hnp. unfold monitorLeaseAsPrimary.
  destruct (setIsPrimary true s) as [s1|] eqn:H1; simpl; [|done].
  destruct (markReady s1) as [s2|] eqn:H2; simpl; [|done].
  destruct (lease_loop _ _ _) as [[e d|w] a]; simpl; [|done].
  destruct (setIsPrimary false s2) as [s3|] eqn:H3; simpl; [|done].
  intros [= -> -> <- ->].
  pose proof (chans_wf_setIsPrimary _ _ _ Hwf H1) as Hwf1.
  pose proof (chans_wf_markReady _ _ Hwf1 H2) as Hwf2.
  pose proof (chans_wf_setIsPrimary _ _ _ Hwf2 H3) as Hwf3.
  rewrite setIsPrimary_eq in H1 by done. rewrite decide_False in H1 by (by rewrite Hnp).
  injection H1 as <-.
  rewrite markReady_eq in H2 by done. rewrite setIsPrimary_eq in H3 by done.
  assert (isPrimary s2 = true ∧ primaryCh s2 = (make_chan (chans s)).1) as [Hp2 Hc2].
  { injection H2 as <-. by destruct (chan_closed _ _). }
  rewrite decide_False in H3 by (by rewrite Hp2). injection H3 as <-.
  cbn [isPrimary primaryCh chans set_isPrimary set_primaryCh set_chans].
  split; [done|]. split.
  - unfold chan_closed. by rewrite lookup_insert_eq.
  - rewrite Hc2. pose proof (make_chan_fresh (chans s)) as Hfresh.
    intros Heq. rewrite Heq, (wf_primaryCh s Hwf) in Hfresh. done.
Qed.

(** ** LTX frames *)

Lemma set_dbs_same (s : Store) : set_dbs (dbs s) s = s.
Proof. by destruct s. Qed.

Lemma set_dbs_insert_same (s : Store) (name : string) (db : DB) :
  dbs s !! name = Some db → set_dbs (<[name := db]> (dbs s)) s = s.
Proof. intros Hdb. rewrite insert_id by done. apply set_dbs_same. Qed.

Lemma append_ne (s t : string) : t ≠ EmptyString → s +:+ t ≠ s.
Proof.
  intros Ht. induction s as [|a s IH]; simpl; [done|].
  intros [= Heq]. by apply IH.
Qed.

(** The temporary name is never the canonical name. *)
Lemma tmpName_ne (file : string) (rnd : Z) : tmpName file rnd ≠ file.
Proof. unfold tmpName. by apply append_ne. Qed.

(** What [CreateDBIfNotExists] hands back is the database stored under
    the name: the one that was there, or a new one. *)
Lemma CreateDBIfNotExists_inr (env : CreateEnv) (name : string) (s s1 : Store)
    (db : DB) :
  CreateDBIfNotExists env name s = (inr db, s1) →
  dbs s1 !! name = Some db ∧ id s1 = id s ∧
  (∀ k, k ≠ name → dbs s1 !! k = dbs s !! k) ∧
  (dbs s !! name = Some db ∧ s1 = s ∨
   dbs s !! name = None ∧ db = NewDB name (DBPath s name)).
Proof.
  unfold CreateDBIfNotExists.
  destruct (dbs s !! name) as [db0|] eqn:Hdb.
  - intros [= <- <-]. repeat split; try done. by left.
  - repeat case_match; try done. intros [= <- <-]. simpl.
    rewrite lookup_insert_eq. split; [done|]. split; [done|]. split; [|by right].
    intros k Hk. by rewrite lookup_insert_ne.
Qed.

Lemma CreateDBIfNotExists_existing (env : CreateEnv) (name : string) (s : Store)
    (db : DB) :
  dbs s !! name = Some db → CreateDBIfNotExists env name s = (inr db, s).
Proof. intros Hdb. unfold CreateDBIfNotExists. by rewrite Hdb. Qed.

(** The function from the point where the write lock is held. *)
Lemma processLTXStreamFrame_locked (env : FrameEnv) (name : string) (src : Reader)
    (s s1 : Store) (db : DB) (hdr : Header) :
  CreateDBIfNotExists (env_create env) name s = (inr db, s1) →
  rd_header src = inr hdr →
  env_AcquireWriteLock env = None →
  processLTXStreamFrame env name src s =
    ((process_locked env (id s) hdr src db).1,
     set_dbs (<[name := (process_locked env (id s) hdr src db).2]> (dbs s1)) s1).
Proof.
  intros Hc Hh Hl. unfold processLTXStreamFrame. rewrite Hc, Hh, Hl.
  unfold Store_ID. by destruct (CreateDBIfNotExists_inr _ _ _ _ _ Hc) as (_ & -> & _).
Qed.


Lemma and_then_None (r : option error * DB) (k : DB → option error * DB) :
  r.1 = None → and_then r k = k r.2.
Proof. unfold and_then. by intros ->. Qed.

Lemma and_then_Some (r : option error * DB) (k : DB → option error * DB) (e : error) :
  r.1 = Some e → and_then r k = (Some e, r.2).
Proof. unfold and_then. by intros ->. Qed.

Lemma and_then_ok (r : option error * DB) (k : DB → option error * DB) :
  (and_then r k).1 = None → r.1 = None ∧ (k r.2).1 = None.
Proof. unfold and_then. by destruct r.1. Qed.

(** *** The self-origin branch *)

Lemma verify_duplicate_db (env : FrameEnv) (db : DB) :
  (verify_duplicate env db).2 = db.
Proof.
  unfold verify_duplicate, and_then, guard_call.
  by destruct (env_Verify env), (env_Discard env).
Qed.



(** *** Removing the files of a directory *)

Lemma os_ReadDir_NoDup (d : gmap string Dirent) : NoDup (os_ReadDir d).*1.
Proof.
  unfold os_ReadDir. rewrite merge_sort_Permutation. apply NoDup_fst_map_to_list.
Qed.

Lemma elem_of_os_ReadDir (d : gmap string Dirent) (n : string) (ent : Dirent) :
  (n, ent) ∈ os_ReadDir d ↔ d !! n = Some ent.
Proof.
  unfold os_ReadDir. rewrite merge_sort_Permutation. apply elem_of_map_to_list.
Qed.

(** The entries come sorted by name. *)
Lemma os_ReadDir_sorted (d : gmap string Dirent) :
  Sorted (λ a b, String.le a.1 b.1) (os_ReadDir d).
Proof.
  assert (Total (λ a b : string * Dirent, String.le a.1 b.1)) as Ht.
  { intros a b. apply (total String.le). }
  apply (Sorted_merge_sort (λ a b : string * Dirent, String.le a.1 b.1)).
Qed.

Lemma removeFilesExcept_iter_eq (fail : string → option error) (file : string)
    (r0 : option error) (d0 : gmap string Dirent) (n : string) (ent : Dirent) :
  removeFilesExcept_iter fail file (r0, d0) (n, ent) =
    if Dirent_IsDir ent || bool_decide (n = file) then (r0, d0)
    else match fail n with
         | Some e => (match r0 with None => Some e | Some r => Some r end, d0)
         | None =>
           match d0 !! n with
           | Some _ => (r0, delete n d0)
           | None => (match r0 with
                      | None => Some (ErrExternal "no such file or directory")
                      | Some r => Some r
                      end, d0)
           end
         end.
Proof.
  unfold removeFilesExcept_iter, os_Remove. simpl.
  destruct (Dirent_IsDir ent || bool_decide (n = file)); [done|].
  destruct (fail n); [done|]. destruct (d0 !! n); [|done]. by destruct r0.
Qed.

Lemma removeFilesExcept_fold (fail : string → option error) (file : string)
    (l : list (string * Dirent)) :
  ∀ (r0 : option error) (d0 : gmap string Dirent) (res : option error * gmap string Dirent),
  res = foldl (removeFilesExcept_iter fail file) (r0, d0) l →
  NoDup l.*1 →
  (∀ n ent, (n, ent) ∈ l → d0 !! n = Some ent) →
  (∀ n, n ∉ l.*1 → res.2 !! n = d0 !! n) ∧
  (∀ n ent, (n, ent) ∈ l → Dirent_IsDir ent = true ∨ n = file →
     res.2 !! n = Some ent) ∧
  (∀ n ent, res.2 !! n = Some ent → d0 !! n = Some ent) ∧
  (res.1 = None →
     r0 = None ∧
     ∀ n ent, (n, ent) ∈ l → Dirent_IsDir ent = false → n ≠ file →
       res.2 !! n = None).
Proof.
  induction l as [|[n0 e0] l IH]; intros r0 d0 res -> Hnd Hin.
  - simpl. split; [done|]. split; [|split; [done|]].
    + intros n ent Hn. by apply elem_of_nil in Hn.
    + intros ->. split; [done|]. intros n ent Hn. by apply elem_of_nil in Hn.
  - rewrite fmap_cons in Hnd. apply NoDup_cons in Hnd as [Hn0 Hnd].
    cbn [foldl]. rewrite removeFilesExcept_iter_eq.
    assert (d0 !! n0 = Some e0) as Hd0 by (apply Hin; left).
    assert (∀ n ent, (n, ent) ∈ l → n ≠ n0) as Hne.
    { intros n ent Hl ->. apply Hn0. apply list_elem_of_fmap. by exists (n0, ent). }
    destruct (Dirent_IsDir e0 || bool_decide (n0 = file)) eqn:Hkeep.
    + destruct (IH r0 d0 _ eq_refl Hnd) as (I1 & I2 & I3 & I4).
      { intros n ent Hl. apply Hin. by right. }
      split; [|split; [|split]].
      * intros n Hn. rewrite fmap_cons in Hn. apply not_elem_of_cons in Hn as [_ Hn].
        by apply I1.
      * intros n ent [[= -> ->]|Hl]%elem_of_cons Hk; [|by eauto].
        by rewrite I1.
      * done.
      * intros Hres. destruct (I4 Hres) as [-> I5]. split; [done|].
        intros n ent [[= -> ->]|Hl]%elem_of_cons Hdir Hfile; [|by eauto].
        rewrite Hdir in Hkeep. simpl in Hkeep.
        by apply bool_decide_eq_true in Hkeep.
    + apply orb_false_iff in Hkeep as [Hdir Hfile].
      apply bool_decide_eq_false in Hfile.
      destruct (fail n0) as [e|] eqn:Hfail.
      * match goal with |- context [foldl _ (?r, ?d) l] =>
          destruct (IH r d _ eq_refl Hnd) as (I1 & I2 & I3 & I4) end.
        { intros n ent Hl. apply Hin. by right. }
        split; [|split; [|split]].
        -- intros n Hn. rewrite fmap_cons in Hn.
           apply not_elem_of_cons in Hn as [_ Hn]. by apply I1.
        -- intros n ent [[= -> ->]|Hl]%elem_of_cons Hk; [|by eauto].
           by rewrite I1.
        -- done.
        -- intros Hres. destruct (I4 Hres) as [Hr _]. by destruct r0.
      * rewrite Hd0.
        destruct (IH r0 (delete n0 d0) _ eq_refl Hnd) as (I1 & I2 & I3 & I4).
        { intros n ent Hl. rewrite lookup_delete_ne by (symmetry; eauto).
          apply Hin. by right. }
        split; [|split; [|split]].
        -- intros n Hn. rewrite fmap_cons in Hn.
           apply not_elem_of_cons in Hn as [Hn' Hn].
           rewrite I1 by done. by rewrite lookup_delete_ne.
        -- intros n ent [[= -> ->]|Hl]%elem_of_cons Hk; [|by eauto].
           destruct Hk as [Hk|Hk]; [congruence|done].
        -- intros n ent Hn. apply I3 in Hn.
           apply lookup_delete_Some in Hn. by destruct Hn.
        -- intros Hres. destruct (I4 Hres) as [-> I5]. split; [done|].
           intros n ent [[= -> ->]|Hl]%elem_of_cons Hd Hf; [|by eauto].
           rewrite I1 by done. apply lookup_delete_eq.
Qed.

(** [removeFilesExcept] keeps the directories and the excepted file,
    removes nothing else than regular files, and when it returns nil every
    other regular file is gone. *)
Lemma removeFilesExcept_spec (readDir : option error) (fail : string → option error)
    (file : string) (d d' : gmap string Dirent) (r : option error) :
  removeFilesExcept readDir fail file d = (r, d') →
  (∀ n ent, d !! n = Some ent → Dirent_IsDir ent = true ∨ n = file →
     d' !! n = Some ent) ∧
  (∀ n ent, d' !! n = Some ent → d !! n = Some ent) ∧
  (r = None →
     ∀ n ent, d' !! n = Some ent → Dirent_IsDir ent = true ∨ n = file).
Proof.
  unfold removeFilesExcept. destruct readDir as [e|].
  { intros [= <- <-]. by repeat split. }
  intros Hfold. symmetry in Hfold.
  destruct (removeFilesExcept_fold fail file (os_ReadDir d) None d (r, d') Hfold)
    as (I1 & I2 & I3 & I4).
  { apply os_ReadDir_NoDup. }
  { intros n ent. apply elem_of_os_ReadDir. }
  simpl in *. split; [|split; [done|]].
  - intros n ent Hn Hk. apply (I2 n ent); [|done]. by apply elem_of_os_ReadDir.
  - intros Hr n ent Hn. destruct (I4 Hr) as [_ I5].
    pose proof (I3 n ent Hn) as Hd.
    destruct (Dirent_IsDir ent) eqn:Hdir; [by left|right].
    destruct (decide (n = file)) as [|Hne]; [done|].
    rewrite (I5 n ent) in Hn; [done| |done|done]. by apply elem_of_os_ReadDir.
Qed.

(** First error: when a removal fails, [removeFilesExcept] reports an
    error, and still removes every other file it is allowed to. *)
Lemma removeFilesExcept_error (fail : string → option error) (file : string)
    (d : gmap string Dirent) (n : string) (ent : Dirent) (e : error) :
  d !! n = Some ent → Dirent_IsDir ent = false → n ≠ file → fail n = Some e →
  is_Some (removeFilesExcept None fail file d).1.
Proof.
  intros Hn Hdir Hfile Hfail.
  destruct (removeFilesExcept None fail file d) as [r d'] eqn:Hrm. simpl.
  destruct r as [r|]; [by eexists|].
  unfold removeFilesExcept in Hrm. symmetry in Hrm.
  destruct (removeFilesExcept_fold fail file (os_ReadDir d) None d (None, d') Hrm)
    as (I1 & I2 & I3 & I4).
  { apply os_ReadDir_NoDup. }
  { intros n' ent'. apply elem_of_os_ReadDir. }
  exfalso. clear I1 I2 I3 I4.
  assert (∀ l r0 d0, (n, ent) ∈ l →
    is_Some (foldl (removeFilesExcept_iter fail file) (r0, d0) l).1) as Hall.
  { assert (∀ l r0 d0, is_Some r0 →
      is_Some (foldl (removeFilesExcept_iter fail file) (r0, d0) l).1) as Hkeep.
    { induction l as [|[n1 e1] l IH]; intros r0 d0 Hr0; [done|].
      cbn [foldl]. rewrite removeFilesExcept_iter_eq.
      destruct Hr0 as [r0' ->]. repeat case_match; by apply IH. }
    induction l as [|[n1 e1] l IH]; intros r0 d0 Hl; [by apply elem_of_nil in Hl|].
    cbn [foldl]. rewrite removeFilesExcept_iter_eq.
    apply elem_of_cons in Hl as [[= <- <-]|Hl].
    - rewrite Hdir, Hfail. rewrite bool_decide_eq_false_2 by done. simpl.
      apply Hkeep. destruct r0; by eexists.
    - repeat case_match; by apply IH. }
  assert (is_Some (None (A:=error), d').1) as [? [=]].
  rewrite Hrm. apply Hall. by apply elem_of_os_ReadDir.
Qed.

(** *** Writing and applying the file *)

Lemma os_Remove_absent (fail : string → option error) (n : string)
    (d : gmap string Dirent) :
  d !! n = None → (os_Remove fail n d).2 = d.
Proof. intros Hn. unfold os_Remove. destruct (fail n); [done|]. by rewrite Hn. Qed.

(** The steps after the position check never touch the HALT lock or the
    name of the database. *)
Lemma write_and_apply_fields (env : FrameEnv) (hdr : Header) (src : Reader)
    (db : DB) :
  db_name (write_and_apply env hdr src db).2 = db_name db ∧
  db_remoteHaltLock (write_and_apply env hdr src db).2 = db_remoteHaltLock db.
Proof.
  unfold write_and_apply, install_ltx, and_then, guard_call,
    remove_after_snapshot, apply_ltx, DB_ApplyLTXNoLock.
  repeat (case_match; simplify_eq/=); done.
Qed.

(** The directory once the temporary file has been written and renamed. *)
Lemma installed_dir (file tmp : string) (e1 e2 e3 : Dirent)
    (d : gmap string Dirent) :
  <[file := e3]> (delete tmp (<[tmp := e2]> (<[tmp := e1]> d)))
    = <[file := e3]> (delete tmp d).
Proof. by rewrite insert_insert_eq, delete_insert_eq. Qed.

(** When the whole of [install_ltx] succeeds: the file is in place under
    its canonical name, after a snapshot [removeFilesExcept] has returned
    nil, and the position is the one the file leads to. *)
Lemma install_ltx_ok (env : FrameEnv) (hdr : Header) (src : Reader)
    (file tmp : string) (db : DB) :
  (install_ltx env hdr src file tmp db).1 = None →
  let data := mkLTXData hdr (rd_post_apply_checksum src) in
  let d1 := <[file := EntFile (Some data)]> (delete tmp (db_ltx db)) in
  ∃ d2,
    (if IsSnapshot hdr
     then removeFilesExcept (env_ReadDir env) (env_Remove env) file d1 = (None, d2)
     else d2 = d1) ∧
    d2 !! file = Some (EntFile (Some data)) ∧
    (install_ltx env hdr src file tmp db).2 =
      set_db_pos (mkPos (MaxTXID hdr) (rd_post_apply_checksum src))
        (set_db_ltx d2 db).
Proof.
  intros Hok data d1. revert Hok. unfold install_ltx, guard_call.
  destruct (env_Create env); [done|]. rewrite and_then_None by done. cbn [snd].
  destruct (env_Copy env); [done|]. rewrite and_then_None by done. cbn [snd].
  destruct (env_Sync env); [done|]. rewrite and_then_None by done. cbn [snd].
  destruct (env_Rename env); [done|]. rewrite and_then_None by done. cbn [snd].
  destruct (env_SyncDir env); [done|]. rewrite and_then_None by done. cbn [snd].
  cbn [db_ltx set_db_ltx]. rewrite installed_dir. fold data. fold d1.
  change (set_db_ltx d1 (set_db_ltx _ (set_db_ltx _ db))) with (set_db_ltx d1 db).
  intros Hok. apply and_then_ok in Hok as [Hrm Hok].
  rewrite and_then_None by done. apply and_then_ok in Hok as [Hap _].
  rewrite and_then_None by done. cbn [snd].
  assert (∃ d2, (if IsSnapshot hdr
      then removeFilesExcept (env_ReadDir env) (env_Remove env) file d1 = (None, d2)
      else d2 = d1) ∧ d2 !! file = Some (EntFile (Some data)) ∧
     (remove_after_snapshot env hdr file (set_db_ltx d1 db)).2 = set_db_ltx d2 db)
    as (d2 & Hd2 & Hfile & Heq).
  { revert Hrm. unfold remove_after_snapshot. destruct (IsSnapshot hdr).
    - cbn [db_ltx set_db_ltx fst snd].
      destruct (removeFilesExcept (env_ReadDir env) (env_Remove env) file d1)
        as [[e|] d2] eqn:Hrm; [done|]. intros _.
      exists d2. split; [done|]. split; [|done].
      destruct (removeFilesExcept_spec _ _ _ _ _ _ Hrm) as (Hkeep & _).
      apply Hkeep; [|by right]. unfold d1. apply lookup_insert_eq.
    - intros _. exists d1. split; [done|]. split; [|done].
      unfold d1. apply lookup_insert_eq. }
  exists d2. split; [done|]. split; [done|].
  revert Hap. rewrite Heq. unfold apply_ltx, DB_ApplyLTXNoLock.
  destruct (env_ApplyLTX env); [done|].
  cbn [db_ltx set_db_ltx]. rewrite Hfile. done.
Qed.

Lemma write_and_apply_ok (env : FrameEnv) (hdr : Header) (src : Reader) (db : DB) :
  (write_and_apply env hdr src db).1 = None →
  let file := FormatFilename (MinTXID hdr) (MaxTXID hdr) in
  let tmp := tmpName file (env_rand env) in
  let data := mkLTXData hdr (rd_post_apply_checksum src) in
  let d1 := <[file := EntFile (Some data)]> (delete tmp (db_ltx db)) in
  ∃ d2,
    (if IsSnapshot hdr
     then removeFilesExcept (env_ReadDir env) (env_Remove env) file d1 = (None, d2)
     else d2 = d1) ∧
    d2 !! file = Some (EntFile (Some data)) ∧
    d2 !! tmp = None ∧
    (write_and_apply env hdr src db).2 =
      set_db_pos (mkPos (MaxTXID hdr) (rd_post_apply_checksum src))
        (set_db_ltx d2 db).
Proof.
  intros Hok file tmp data d1. revert Hok.
  unfold write_and_apply. cbv zeta. fold file. fold tmp. cbn [fst snd]. intros Hok.
  destruct (install_ltx_ok env hdr src file tmp db Hok) as (d2 & Hd2 & Hfile & Heq).
  rewrite Heq. fold data d1 in Hd2, Hfile.
  assert (d1 !! tmp = None) as Htmp1.
  { unfold d1. rewrite lookup_insert_ne by (symmetry; apply tmpName_ne).
    apply lookup_delete_eq. }
  assert (d2 !! tmp = None) as Htmp2.
  { destruct (IsSnapshot hdr); [|by subst].
    destruct (removeFilesExcept_spec _ _ _ _ _ _ Hd2) as (_ & Hsub & _).
    destruct (d2 !! tmp) as [ent|] eqn:Hent; [|done].
    apply Hsub in Hent. congruence. }
  exists d2. split; [done|]. split; [done|]. split; [done|].
  cbn [db_ltx set_db_ltx set_db_pos]. rewrite os_Remove_absent by done.
  done.
Qed.

(** Whatever happens after the position check, the position moves only
    when the whole function succeeds. *)
Lemma write_and_apply_pos (env : FrameEnv) (hdr : Header) (src : Reader) (db : DB) :
  is_Some (write_and_apply env hdr src db).1 →
  db_pos (write_and_apply env hdr src db).2 = db_pos db.
Proof.
  unfold write_and_apply, install_ltx, and_then, guard_call,
    remove_after_snapshot, apply_ltx, DB_ApplyLTXNoLock. cbn [fst snd].
  intros [e He]. revert He.
  repeat (case_match; simplify_eq/=); done.
Qed.

(** On every path the temporary file is gone at the end, provided the
    operating system does not refuse to remove it. *)
Lemma write_and_apply_no_tmp (env : FrameEnv) (hdr : Header) (src : Reader) (db : DB) :
  let file := FormatFilename (MinTXID hdr) (MaxTXID hdr) in
  let tmp := tmpName file (env_rand env) in
  env_Remove env tmp = None →
  db_ltx (write_and_apply env hdr src db).2 !! tmp = None.
Proof.
  intros file tmp Hrm. unfold write_and_apply. cbv zeta. fold file. fold tmp.
  cbn [db_ltx set_db_ltx snd]. unfold os_Remove. rewrite Hrm.
  destruct (db_ltx _ !! tmp) eqn:Hl; cbn [snd]; [apply lookup_delete_eq|done].
Qed.

(** *** The branch of a frame written by another node *)

Lemma unhalt_fields (env : FrameEnv) (db : DB) :
  db_name (unhalt env db).2 = db_name db ∧
  db_pos (unhalt env db).2 = db_pos db ∧
  db_ltx (unhalt env db).2 = db_ltx db.
Proof.
  unfold unhalt, DB_UnsetRemoteHaltLock.
  repeat (case_match; simplify_eq/=); done.
Qed.

Lemma unhalt_ok (env : FrameEnv) (db : DB) :
  (unhalt env db).1 = None →
  db_remoteHaltLock (unhalt env db).2 = None.
Proof.
  unfold unhalt, DB_UnsetRemoteHaltLock.
  repeat (case_match; simplify_eq/=); done.
Qed.

Lemma unhalt_result (env : FrameEnv) (db : DB) :
  (unhalt env db).1 =
    match db_remoteHaltLock db with
    | Some _ => Errorf "release remote halt lock" <$> env_UnsetRemoteHaltLock env
    | None => None
    end.
Proof.
  unfold unhalt, DB_UnsetRemoteHaltLock.
  repeat (case_match; simplify_eq/=); done.
Qed.

Lemma unhalt_failed (env : FrameEnv) (db : DB) :
  is_Some (unhalt env db).1 → (unhalt env db).2 = db.
Proof.
  unfold unhalt, DB_UnsetRemoteHaltLock. intros [e He]. revert He.
  repeat (case_match; simplify_eq/=); done.
Qed.

Lemma check_position_db (hdr : Header) (db : DB) :
  (check_position hdr db).2 = db.
Proof. unfold check_position. by repeat case_match. Qed.

Lemma check_position_result (hdr : Header) (db : DB) :
  (check_position hdr db).1 =
    if IsSnapshot hdr then None
    else if decide (db_pos db = expectedPos hdr) then None
    else Some (ErrPositionMismatch (db_name db) (db_pos db) (expectedPos hdr)).
Proof.
  unfold check_position. destruct (IsSnapshot hdr); simpl; [done|].
  destruct (decide (db_pos db = expectedPos hdr)).
  - by rewrite decide_False by (by intros ?).
  - by rewrite decide_True.
Qed.

(** In [uint64] arithmetic the test of the source, [pos.TXID = MinTXID - 1],
    is the same as [MinTXID = pos.TXID + 1]. *)
Lemma expectedPos_iff (hdr : Header) (p : Pos) :
  is_uint64 (MinTXID hdr) → is_uint64 (TXID p) →
  p = expectedPos hdr ↔
  MinTXID hdr = wrap64 (TXID p + 1) ∧ PreApplyChecksum hdr = PostApplyChecksum p.
Proof.
  unfold is_uint64, expectedPos, wrap64. destruct p as [t c]. simpl.
  change (2 ^ 64) with 18446744073709551616. intros Hm Ht. split.
  - intros [= -> ->]. split; [|done].
    destruct (decide (MinTXID hdr = 0)) as [->|Hne]; [done|].
    rewrite (Z.mod_small (MinTXID hdr - 1)) by lia.
    rewrite Z.mod_small; lia.
  - intros [Hmin <-]. f_equal.
    destruct (decide (t = 18446744073709551615)) as [->|Hne].
    + by rewrite Hmin.
    + rewrite Z.mod_small in Hmin by lia. rewrite Hmin.
      rewrite Z.mod_small; lia.
Qed.

(** Without overflow this is the plain successor. *)
Lemma expectedPos_iff_small (hdr : Header) (p : Pos) :
  is_uint64 (MinTXID hdr) → 0 ≤ TXID p → TXID p + 1 < 2 ^ 64 →
  p = expectedPos hdr ↔
  MinTXID hdr = TXID p + 1 ∧ PreApplyChecksum hdr = PostApplyChecksum p.
Proof.
  intros Hm H0 H1. rewrite expectedPos_iff by (unfold is_uint64 in *; lia).
  unfold wrap64. by rewrite Z.mod_small by lia.
Qed.

Lemma process_locked_foreign (env : FrameEnv) (self : Z) (hdr : Header)
    (src : Reader) (db : DB) :
  NodeID hdr ≠ self →
  process_locked env self hdr src db =
    and_then (unhalt env db) (λ db1,
      and_then (check_position hdr db1) (λ db2, write_and_apply env hdr src db2)).
Proof. intros Hne. unfold process_locked. by rewrite decide_False. Qed.

(** The store after a frame: the database under [name] is what the
    locked part of the function left. *)
Lemma processLTXStreamFrame_db (env : FrameEnv) (name : string) (src : Reader)
    (s s1 : Store) (db : DB) (hdr : Header) :
  CreateDBIfNotExists (env_create env) name s = (inr db, s1) →
  rd_header src = inr hdr →
  env_AcquireWriteLock env = None →
  (processLTXStreamFrame env name src s).1
    = (process_locked env (id s) hdr src db).1 ∧
  dbs (processLTXStreamFrame env name src s).2 !! name
    = Some (process_locked env (id s) hdr src db).2 ∧
  (∀ k, k ≠ name →
     dbs (processLTXStreamFrame env name src s).2 !! k = dbs s !! k).
Proof.
  intros Hc Hh Hl.
  rewrite (processLTXStreamFrame_locked env name src s s1 db hdr) by done.
  destruct (CreateDBIfNotExists_inr _ _ _ _ _ Hc) as (_ & _ & Hk & _).
  cbn [fst snd dbs set_dbs]. split; [done|]. split.
  - apply lookup_insert_eq.
  - intros k Hne. rewrite lookup_insert_ne by done. by apply Hk.
Qed.

(** C2 (as amended).  For a database that holds a remote HALT lock, a
    frame written by another node unsets the lock as soon as the write lock
    is held, whatever happens to the frame afterwards, unless the unset
    itself fails, in which case the function returns that error; a frame
    that carries the store's own node ID leaves the HALT lock in place. *)
Theorem foreign_frame_unsets_halt_lock (env : FrameEnv) (name : string)
    (src : Reader) (s : Store) (db : DB) (hdr : Header) (lock : HaltLock) :
  dbs s !! name = Some db →
  db_remoteHaltLock db = Some lock →
  rd_header src = inr hdr →
  env_AcquireWriteLock env = None →
  (NodeID hdr ≠ Store_ID s → env_UnsetRemoteHaltLock env = None →
     ∃ db', dbs (processLTXStreamFrame env name src s).2 !! name = Some db' ∧
            db_remoteHaltLock db' = None) ∧
  (NodeID hdr ≠ Store_ID s → ∀ e, env_UnsetRemoteHaltLock env = Some e →
     processLTXStreamFrame env name src s
       = (Some (Errorf "release remote halt lock" e), s)) ∧
  (NodeID hdr = Store_ID s →
     dbs (processLTXStreamFrame env name src s).2 !! name = Some db).
Proof.
  intros Hdb Hlock Hh Hl.
  pose proof (CreateDBIfNotExists_existing (env_create env) name s db Hdb) as Hc.
  destruct (processLTXStreamFrame_db env name src s s db hdr Hc Hh Hl)
    as (Hres & Hfinal & _).
  split; [|split].
  - intros Hne Hunset. eexists. split; [exact Hfinal|].
    rewrite process_locked_foreign by done.
    assert ((unhalt env db).1 = None) as Hu.
    { by rewrite unhalt_result, Hlock, Hunset. }
    rewrite and_then_None by done.
    pose proof (unhalt_ok env db Hu) as Hnone.
    destruct (check_position hdr (unhalt env db).2).1 as [e|] eqn:Hchk.
    + rewrite (and_then_Some _ _ e) by done. cbn [snd].
      by rewrite check_position_db.
    + rewrite and_then_None by done. rewrite check_position_db.
      by destruct (write_and_apply_fields env hdr src (unhalt env db).2) as [_ ->].
  - intros Hne e Hunset.
    rewrite (processLTXStreamFrame_locked env name src s s db hdr) by done.
    rewrite process_locked_foreign by done.
    assert ((unhalt env db).1 = Some (Errorf "release remote halt lock" e)) as Hu.
    { by rewrite unhalt_result, Hlock, Hunset. }
    rewrite (and_then_Some _ _ _ Hu). cbn [fst snd].
    rewrite unhalt_failed by (rewrite Hu; by eexists).
    by rewrite set_dbs_insert_same.
  - intros Hself. rewrite Hfinal. unfold process_locked.
    rewrite decide_True by done. by rewrite verify_duplicate_db.
Qed.

(** C3 (as amended).  For a non-snapshot frame written by another node,
    once the write lock is held and any remote HALT lock has been unset:
    when [hdr.MinTXID = pos.TXID + 1] and
    [hdr.PreApplyChecksum = pos.PostApplyChecksum] do not both hold (in
    [uint64] arithmetic) the function returns the position-mismatch error
    and leaves the position and the LTX directory of the database as they
    were, no temporary file having been created; and when the function
    returns nil, both did hold and the position is the one after the
    file. *)
Theorem non_snapshot_frame_position_check (env : FrameEnv) (name : string)
    (src : Reader) (s s1 : Store) (db : DB) (hdr : Header) :
  CreateDBIfNotExists (env_create env) name s = (inr db, s1) →
  rd_header src = inr hdr →
  IsSnapshot hdr = false →
  NodeID hdr ≠ Store_ID s →
  env_AcquireWriteLock env = None →
  db_remoteHaltLock db = None ∨ env_UnsetRemoteHaltLock env = None →
  is_uint64 (MinTXID hdr) → is_uint64 (TXID (db_pos db)) →
  (¬ (MinTXID hdr = wrap64 (TXID (db_pos db) + 1) ∧
      PreApplyChecksum hdr = PostApplyChecksum (db_pos db)) →
     (processLTXStreamFrame env name src s).1
       = Some (ErrPositionMismatch (db_name db) (db_pos db) (expectedPos hdr)) ∧
     ∃ db', dbs (processLTXStreamFrame env name src s).2 !! name = Some db' ∧
            db_pos db' = db_pos db ∧ db_ltx db' = db_ltx db) ∧
  ((processLTXStreamFrame env name src s).1 = None →
     (MinTXID hdr = wrap64 (TXID (db_pos db) + 1) ∧
      PreApplyChecksum hdr = PostApplyChecksum (db_pos db)) ∧
     ∃ db', dbs (processLTXStreamFrame env name src s).2 !! name = Some db' ∧
            db_pos db' = mkPos (MaxTXID hdr) (rd_post_apply_checksum src)).
Proof.
  intros Hc Hh Hsnap Hne Hl Hhalt Hmin Htxid.
  destruct (processLTXStreamFrame_db env name src s s1 db hdr Hc Hh Hl)
    as (Hres & Hfinal & _).
  rewrite Hres, Hfinal. rewrite process_locked_foreign by done.
  assert ((unhalt env db).1 = None) as Hu.
  { rewrite unhalt_result. destruct Hhalt as [->| ->]; [done|].
    by destruct (db_remoteHaltLock db). }
  rewrite and_then_None by done.
  destruct (unhalt_fields env db) as (Hn1 & Hp1 & Hd1).
  pose proof (check_position_result hdr (unhalt env db).2) as Hchk.
  rewrite Hsnap, Hn1, Hp1 in Hchk.
  split.
  - intros Hcond.
    rewrite decide_False in Hchk by (by rewrite expectedPos_iff).
    rewrite (and_then_Some _ _ _ Hchk). cbn [fst snd].
    split; [done|]. eexists. split; [done|]. by rewrite check_position_db.
  - destruct (decide (db_pos db = expectedPos hdr)) as [Hpos|Hpos].
    + rewrite and_then_None by done. rewrite check_position_db.
      intros Hok. split; [by apply expectedPos_iff|].
      destruct (write_and_apply_ok env hdr src _ Hok) as (d2 & _ & _ & _ & ->).
      eexists. split; [done|]. done.
    + by rewrite (and_then_Some _ _ _ Hchk).
Qed.


(** *** A frame that goes through *)

Lemma removeFilesExcept_succeeds (fail : string → option error) (file : string)
    (d : gmap string Dirent) :
  (∀ n, fail n = None) → (removeFilesExcept None fail file d).1 = None.
Proof.
  intros Hfail. unfold removeFilesExcept.
  assert (∀ l r0 d0, NoDup l.*1 →
    (∀ n ent, (n, ent) ∈ l → d0 !! n = Some ent) →
    (foldl (removeFilesExcept_iter fail file) (r0, d0) l).1 = r0) as Hfold.
  { induction l as [|[n0 e0] l IH]; intros r0 d0 Hnd Hin; [done|].
    rewrite fmap_cons in Hnd. apply NoDup_cons in Hnd as [Hn0 Hnd].
    cbn [foldl]. rewrite removeFilesExcept_iter_eq, Hfail.
    rewrite (Hin n0 e0) by left.
    destruct (Dirent_IsDir e0 || bool_decide (n0 = file)).
    - apply IH; [done|]. intros n ent Hl. apply Hin. by right.
    - apply IH; [done|]. intros n ent Hl.
      rewrite lookup_delete_ne; [apply Hin; by right|].
      intros ->. apply Hn0. apply list_elem_of_fmap. by exists (n, ent). }
  apply Hfold; [apply os_ReadDir_NoDup|].
  intros n ent. apply elem_of_os_ReadDir.
Qed.

(** When every call succeeds, a frame written by another node is
    installed and applied, provided it is a snapshot or starts at the
    position of the database. *)
Lemma write_and_apply_succeeds (env : FrameEnv) (hdr : Header) (src : Reader)
    (db : DB) :
  env_succeeds env → (write_and_apply env hdr src db).1 = None.
Proof.
  intros (_ & _ & Hc & Hcp & Hs & Hr & Hsd & Hrd & Hrm & Ha).
  unfold write_and_apply, install_ltx, guard_call. cbv zeta. cbn [fst].
  rewrite Hc, Hcp, Hs, Hr, Hsd. rewrite !and_then_None by done. cbn [snd].
  cbn [db_ltx set_db_ltx]. rewrite installed_dir.
  match goal with |- context [remove_after_snapshot env hdr ?f ?x] =>
    assert ((remove_after_snapshot env hdr f x).1 = None ∧
            db_ltx (remove_after_snapshot env hdr f x).2 !! f
              = Some (EntFile (Some (mkLTXData hdr (rd_post_apply_checksum src)))))
      as [Hrs Hfile] end.
  { unfold remove_after_snapshot. destruct (IsSnapshot hdr).
    - cbn [fst snd db_ltx set_db_ltx]. rewrite Hrd.
      match goal with |- context [removeFilesExcept None ?fl ?f ?d] =>
        pose proof (removeFilesExcept_succeeds fl f d Hrm) as Hnone;
        destruct (removeFilesExcept None fl f d) as [r d2] eqn:Heq end.
      simpl in Hnone. subst r. split; [done|]. cbn [snd].
      destruct (removeFilesExcept_spec _ _ _ _ _ _ Heq) as (Hkeep & _).
      apply Hkeep; [apply lookup_insert_eq|by right].
    - split; [done|]. cbn [snd db_ltx set_db_ltx]. apply lookup_insert_eq. }
  rewrite and_then_None by done.
  unfold apply_ltx, DB_ApplyLTXNoLock. rewrite Ha, Hfile. done.
Qed.

Lemma processLTXStreamFrame_succeeds (env : FrameEnv) (name : string)
    (src : Reader) (s s1 : Store) (db : DB) (hdr : Header) :
  CreateDBIfNotExists (env_create env) name s = (inr db, s1) →
  rd_header src = inr hdr →
  NodeID hdr ≠ Store_ID s →
  env_succeeds env →
  IsSnapshot hdr = true ∨ db_pos db = expectedPos hdr →
  (processLTXStreamFrame env name src s).1 = None.
Proof.
  intros Hc Hh Hne Henv Hpos.
  pose proof Henv as (Hl & Hunset & _).
  destruct (processLTXStreamFrame_db env name src s s1 db hdr Hc Hh Hl)
    as (-> & _ & _).
  rewrite process_locked_foreign by done.
  assert ((unhalt env db).1 = None) as Hu.
  { rewrite unhalt_result, Hunset. by destruct (db_remoteHaltLock db). }
  rewrite and_then_None by done.
  destruct (unhalt_fields env db) as (_ & Hp1 & _).
  assert ((check_position hdr (unhalt env db).2).1 = None) as Hchk.
  { rewrite check_position_result, Hp1.
    destruct Hpos as [->|Hpos]; [done|]. destruct (IsSnapshot hdr); [done|].
    by rewrite decide_True. }
  rewrite and_then_None by done.
  by apply write_and_apply_succeeds.
Qed.

Lemma env_ok_succeeds : env_succeeds env_ok.
Proof. by repeat split. Qed.

(** *** The examples, run *)

(** Scenario "snapshot received": only the snapshot file remains and the
    position is the one of the snapshot. *)
Example replica_receives_snapshot :
  let r := processLTXStreamFrame env_ok "db" frame_snapshot replica in
  r.1 = None ∧
  (db_pos <$> dbs r.2 !! "db") = Some (mkPos 10 48879) ∧
  (dom ∘ db_ltx <$> dbs r.2 !! "db") = Some {[ FormatFilename 1 10 ]}.
Proof. vm_compute. repeat split. Qed.

(** The next transaction moves the position on and keeps the files. *)
Example replica_receives_next :
  let r := processLTXStreamFrame env_ok "db" frame_next replica in
  r.1 = None ∧
  (db_pos <$> dbs r.2 !! "db") = Some (mkPos 7 187) ∧
  (size ∘ db_ltx <$> dbs r.2 !! "db") = Some 4%nat.
Proof. vm_compute. repeat split. Qed.

(** *** Frames that this node wrote itself *)

(** The claim C2 as it is stated fails: the database holds a remote HALT
    lock, a frame for it is processed without error, and the lock is still
    held, because the frame carries the store's own node ID. *)
Lemma own_frame_keeps_halt_lock :
  db_remoteHaltLock <$> dbs replica !! "db" = Some (Some (mkHaltLock 7 1000)) ∧
  rd_header frame_own = inr (mkHeader 4 5 51 (Store_ID replica) false) ∧
  (processLTXStreamFrame env_ok "db" frame_own replica).1 = None ∧
  db_remoteHaltLock <$> dbs (processLTXStreamFrame env_ok "db" frame_own replica).2 !! "db"
    = Some (Some (mkHaltLock 7 1000)).
Proof. vm_compute. repeat split. Qed.

Lemma foreign_frame_unsets_halt_lock_witness :
  (∃ db', dbs (processLTXStreamFrame env_ok "db" frame_out_of_order replica).2 !! "db"
            = Some db' ∧ db_remoteHaltLock db' = None) ∧
  processLTXStreamFrame env_unset_fails "db" frame_next replica
    = (Some (Errorf "release remote halt lock" (ErrExternal "unset halt lock")),
       replica) ∧
  dbs (processLTXStreamFrame env_ok "db" frame_own replica).2 !! "db"
    = Some replica_db.
Proof.
  split; [|split].
  - refine (proj1 (foreign_frame_unsets_halt_lock env_ok "db" frame_out_of_order
      replica replica_db (mkHeader 8 8 187 1 false) (mkHaltLock 7 1000)
      _ _ _ _) _ _);
      first [ vm_compute; reflexivity | vm_compute; discriminate ].
  - refine (proj1 (proj2 (foreign_frame_unsets_halt_lock env_unset_fails "db"
      frame_next replica replica_db (mkHeader 6 7 170 1 false) (mkHaltLock 7 1000)
      _ _ _ _)) _ _ _);
      first [ vm_compute; reflexivity | vm_compute; discriminate ].
  - refine (proj2 (proj2 (foreign_frame_unsets_halt_lock env_ok "db" frame_own
      replica replica_db (mkHeader 4 5 51 2 false) (mkHaltLock 7 1000)
      _ _ _ _)) _);
      vm_compute; reflexivity.
Defined.

(** The claim C3 as it is stated fails: the frame is not a snapshot and
    does not start at the position of the database, every call outside
    the store succeeds, and the function returns nil, not a
    position-mismatch error, because the frame carries the store's own
    node ID. *)
Lemma own_frame_no_position_mismatch :
  db_pos <$> dbs replica !! "db" = Some (mkPos 5 170) ∧
  rd_header frame_own = inr (mkHeader 4 5 51 (Store_ID replica) false) ∧
  4 ≠ wrap64 (5 + 1) ∧
  processLTXStreamFrame env_ok "db" frame_own replica = (None, replica).
Proof. vm_compute. repeat split. discriminate. Qed.

Lemma non_snapshot_frame_position_check_witness :
  (processLTXStreamFrame env_ok "db" frame_out_of_order replica).1
    = Some (ErrPositionMismatch "db" (mkPos 5 170) (mkPos 7 187)) ∧
  ∃ db', dbs (processLTXStreamFrame env_ok "db" frame_out_of_order replica).2 !! "db"
           = Some db' ∧
         db_pos db' = mkPos 5 170 ∧ db_ltx db' = db_ltx replica_db.
Proof.
  refine (proj1 (non_snapshot_frame_position_check env_ok "db" frame_out_of_order
    replica replica replica_db (mkHeader 8 8 187 1 false) _ _ _ _ _ _ _ _) _).
  - vm_compute. reflexivity.
  - reflexivity.
  - reflexivity.
  - vm_compute. discriminate.
  - reflexivity.
  - right. reflexivity.
  - vm_compute. split; [discriminate | reflexivity].
  - vm_compute. split; [discriminate | reflexivity].
  - vm_compute. intros [? _]. discriminate.
Defined.




(** * Further properties of the store *)

(** ** [removeFilesExcept] *)

(** X1. [removeFilesExcept] never removes a directory or the excepted
    file, never adds or alters an entry, removes nothing when the directory
    cannot be read, and when it returns nil every entry left is a directory
    or the excepted file. *)
Theorem removeFilesExcept_keeps_and_removes (readDir : option error)
    (fail : string → option error) (file : string) (d : gmap string Dirent) :
  (∀ n ent, d !! n = Some ent → Dirent_IsDir ent = true ∨ n = file →
     (removeFilesExcept readDir fail file d).2 !! n = Some ent) ∧
  (∀ n ent, (removeFilesExcept readDir fail file d).2 !! n = Some ent →
     d !! n = Some ent) ∧
  (∀ e, readDir = Some e → removeFilesExcept readDir fail file d = (Some e, d)) ∧
  ((removeFilesExcept readDir fail file d).1 = None →
     ∀ n ent, (removeFilesExcept readDir fail file d).2 !! n = Some ent →
       Dirent_IsDir ent = true ∨ n = file).
Proof.
  destruct (removeFilesExcept readDir fail file d) as [r d'] eqn:Hrm.
  destruct (removeFilesExcept_spec _ _ _ _ _ _ Hrm) as (H1 & H2 & H3).
  cbn [fst snd]. split; [done|]. split; [done|]. split; [|done].
  intros e ->. by rewrite <- Hrm.
Qed.

(** When no removable entry of a list fails, the loop leaves the error it
    started with and removes all of them. *)
Lemma removeFilesExcept_fold_quiet (fail : string → option error) (file : string)
    (l : list (string * Dirent)) :
  ∀ (r0 : option error) (d0 : gmap string Dirent),
  NoDup l.*1 →
  (∀ n ent, (n, ent) ∈ l → d0 !! n = Some ent) →
  (∀ n ent, (n, ent) ∈ l → Dirent_IsDir ent = false → n ≠ file → fail n = None) →
  (foldl (removeFilesExcept_iter fail file) (r0, d0) l).1 = r0.
Proof.
  induction l as [|[n0 e0] l IH]; intros r0 d0 Hnd Hin Hok; [done|].
  rewrite fmap_cons in Hnd. apply NoDup_cons in Hnd as [Hn0 Hnd].
  cbn [foldl]. rewrite removeFilesExcept_iter_eq.
  assert (∀ n ent, (n, ent) ∈ l → n ≠ n0) as Hne.
  { intros n ent Hl ->. apply Hn0. apply list_elem_of_fmap. by exists (n0, ent). }
  destruct (Dirent_IsDir e0 || bool_decide (n0 = file)) eqn:Hkeep.
  - apply IH; [done| |]; intros n ent Hl; [apply Hin|apply Hok]; by right.
  - apply orb_false_iff in Hkeep as [Hdir Hfile].
    apply bool_decide_eq_false in Hfile.
    rewrite (Hok n0 e0) by (done || by left). rewrite (Hin n0 e0) by left.
    apply IH; [done| |].
    + intros n ent Hl. rewrite lookup_delete_ne by (symmetry; eauto).
      apply Hin. by right.
    + intros n ent Hl. apply Hok. by right.
Qed.

Lemma removeFilesExcept_fold_sticky (fail : string → option error) (file : string)
    (l : list (string * Dirent)) (e : error) (d0 : gmap string Dirent) :
  (foldl (removeFilesExcept_iter fail file) (Some e, d0) l).1 = Some e.
Proof.
  revert d0. induction l as [|[n0 e0] l IH]; intros d0; [done|].
  cbn [foldl]. rewrite removeFilesExcept_iter_eq.
  repeat case_match; apply IH.
Qed.

(** X2. [removeFilesExcept] goes on after a failed removal: every file
    that the operating system lets go and that is not excepted is gone
    afterwards, whatever happened to the others; and the error it returns
    is the one of the failing entry that comes first in the order of
    [os.ReadDir], that is, by name. *)
Theorem removeFilesExcept_first_error (fail : string → option error)
    (file : string) (d : gmap string Dirent) :
  (∀ n ent, d !! n = Some ent → Dirent_IsDir ent = false → n ≠ file →
     fail n = None →
     (removeFilesExcept None fail file d).2 !! n = None) ∧
  (∀ n ent e, d !! n = Some ent → Dirent_IsDir ent = false → n ≠ file →
     fail n = Some e →
     (∀ n' ent', d !! n' = Some ent' → Dirent_IsDir ent' = false → n' ≠ file →
        is_Some (fail n') → String.le n n') →
     (removeFilesExcept None fail file d).1 = Some e).
Proof.
  split.
  - intros n ent Hn Hdir Hfile Hfail. unfold removeFilesExcept.
    assert (∀ l r0 d0, NoDup l.*1 →
      (∀ n' ent', (n', ent') ∈ l → d0 !! n' = Some ent') →
      (n, ent) ∈ l →
      (foldl (removeFilesExcept_iter fail file) (r0, d0) l).2 !! n = None) as Hgo.
    { induction l as [|[n0 e0] l IH]; intros r0 d0 Hnd Hin Hl;
        [by apply elem_of_nil in Hl|].
      rewrite fmap_cons in Hnd. apply NoDup_cons in Hnd as [Hn0 Hnd].
      cbn [foldl].
      apply elem_of_cons in Hl as [[= <- <-]|Hl].
      - rewrite removeFilesExcept_iter_eq, Hdir, Hfail, (Hin n ent) by left.
        rewrite bool_decide_eq_false_2 by done. cbn [orb].
        match goal with |- context [foldl ?f (?r, ?m) l] =>
          destruct (removeFilesExcept_fold fail file l r m _ eq_refl Hnd)
            as (I1 & _) end.
        { intros n' ent' Hl'. rewrite lookup_delete_ne; [apply Hin; by right|].
          intros ->. apply Hn0. apply list_elem_of_fmap. by exists (n', ent'). }
        rewrite I1 by done. apply lookup_delete_eq.
      - destruct (removeFilesExcept_iter fail file (r0, d0) (n0, e0)) as [r1 d1] eqn:Hit.
        apply IH; [done| |done].
        intros n' ent' Hl'.
        assert (n' ≠ n0) as Hne.
        { intros ->. apply Hn0. apply list_elem_of_fmap. by exists (n0, ent'). }
        rewrite removeFilesExcept_iter_eq in Hit.
        repeat case_match; simplify_eq; rewrite ?lookup_delete_ne by done;
          apply Hin; by right. }
    apply Hgo; [apply os_ReadDir_NoDup| |by apply elem_of_os_ReadDir].
    intros n' ent'. apply elem_of_os_ReadDir.
  - intros n ent e Hn Hdir Hfile Hfail Hleast. unfold removeFilesExcept.
    assert ((n, ent) ∈ os_ReadDir d) as Hl by by apply elem_of_os_ReadDir.
    apply list_elem_of_split in Hl as (l1 & l2 & Hsplit).
    pose proof (os_ReadDir_NoDup d) as Hnd.
    pose proof (os_ReadDir_sorted d) as Hsorted.
    assert (∀ x, x ∈ os_ReadDir d → d !! x.1 = Some x.2) as Hall.
    { intros [n' ent'] Hx. by apply elem_of_os_ReadDir. }
    rewrite Hsplit in Hnd, Hsorted, Hall |- *.
    rewrite fmap_app, fmap_cons in Hnd. apply NoDup_app in Hnd as (Hnd1 & Hdisj & _).
    assert (Transitive (λ a b : string * Dirent, String.le a.1 b.1)) as Htrans.
    { intros a b c Hab Hbc. by etrans. }
    apply Sorted_StronglySorted in Hsorted; [|done].
    assert (∀ x, x ∈ l1 → String.le x.1 n) as Hbefore.
    { clear -Hsorted. intros x Hx.
      induction l1 as [|y l1 IH]; [by apply elem_of_nil in Hx|].
      simpl in Hsorted. apply StronglySorted_inv in Hsorted as [Hs Hy].
      apply elem_of_cons in Hx as [->|Hx]; [|by apply IH].
      rewrite Forall_forall in Hy. apply (Hy (n, ent)).
      apply elem_of_app. right. left. }
    rewrite foldl_app.
    destruct (foldl (removeFilesExcept_iter fail file) (None, d) l1) as [r1 d1] eqn:H1.
    assert (r1 = None) as ->.
    { change r1 with (r1, d1).1. rewrite <- H1.
      apply removeFilesExcept_fold_quiet; [done| |].
      - intros n' ent' Hl'. apply (Hall (n', ent')). apply elem_of_app. by left.
      - intros n' ent' Hl' Hd' Hf'.
        destruct (fail n') as [e'|] eqn:Hfail'; [|done]. exfalso.
        assert (String.le n n') as Hle1.
        { apply (Hleast n' ent'); [|done|done|by rewrite Hfail'].
          apply (Hall (n', ent')). apply elem_of_app. by left. }
        assert (String.le n' n) as Hle2 by apply (Hbefore (n', ent') Hl').
        assert (n' = n) as -> by by apply (anti_symm String.le).
        apply (Hdisj n).
        + apply list_elem_of_fmap. by exists (n, ent').
        + left. }
    assert (d1 !! n = Some ent) as Hd1.
    { destruct (removeFilesExcept_fold fail file l1 None d (None, d1)) as (I1 & _).
      - by rewrite H1.
      - done.
      - intros n' ent' Hl'. apply (Hall (n', ent')). apply elem_of_app. by left.
      - cbn [snd] in I1. rewrite I1; [done|]. intros Hin1.
        apply (Hdisj n Hin1). left. }
    cbn [foldl]. rewrite removeFilesExcept_iter_eq, Hdir, Hfail.
    rewrite bool_decide_eq_false_2 by done. cbn [orb].
    apply removeFilesExcept_fold_sticky.
Qed.

Lemma removeFilesExcept_first_error_witness :
  let d : gmap string Dirent :=
    <["a" := EntFile None]> (<["b" := EntFile None]> (<["c" := EntFile None]>
      (<["keep" := EntFile None]> ∅))) in
  let fail := λ n : string,
    if decide (n = "b") then Some (ErrExternal "busy")
    else if decide (n = "c") then Some (ErrExternal "denied") else None in
  (removeFilesExcept None fail "keep" d).2 !! "a" = None ∧
  (removeFilesExcept None fail "keep" d).1 = Some (ErrExternal "busy").
Proof.
  intros d fail.
  destruct (removeFilesExcept_first_error fail "keep" d) as [H1 H2]. split.
  - apply (H1 "a" (EntFile None)); reflexivity || done.
  - apply (H2 "b" (EntFile None)); try (reflexivity || done).
    intros n' ent' Hn' _ _ Hf. unfold fail in Hf.
    repeat case_decide; subst; try (by destruct Hf); by vm_compute.
Defined.

(** ** Channels of the store *)










(** ** Subscribers over the life of the store *)












(** ** Creating and dropping databases *)

(** X8. Creating a database that does not exist, with every call to the
    operating system succeeding, stores a database of that name and path
    under the name and marks it dirty on every registered subscriber;
    dropping it again gives back the DB map as it was, leaves identity,
    status and channels untouched, and marks the name dirty once more. *)
Theorem CreateDB_then_DropDB (env : CreateEnv) (name : string) (s : Store) :
  dbs s !! name = None →
  env_MkdirAll env = None → env_CreateFile env = None → env_Open env = None →
  ∃ db s1 s2,
    CreateDB env name s = (inr db, s1) ∧
    db_name db = name ∧ db_path db = DBPath s name ∧
    dbs s1 = <[name := db]> (dbs s) ∧
    (∀ sub o, sub ∈ subscribers s → subs s !! sub = Some o →
       subs s1 !! sub = Some (Subscriber_MarkDirty name o)) ∧
    DropDB None name s1 = (None, s2) ∧
    dbs s2 = dbs s ∧ control s2 = control s ∧ subscribers s2 = subscribers s ∧
    (∀ sub o, sub ∈ subscribers s → subs s !! sub = Some o →
       subs s2 !! sub
         = Some (Subscriber_MarkDirty name (Subscriber_MarkDirty name o))).
Proof.
  intros Hdb H1 H2 H3. unfold CreateDB. rewrite Hdb, H1, H2, H3.
  set (db := NewDB name (DBPath s name)).
  set (s0 := set_dbs (<[name := db]> (dbs s)) s).
  assert (∀ sub o, sub ∈ subscribers s → subs s !! sub = Some o →
            subs (markDirty name s0) !! sub = Some (Subscriber_MarkDirty name o))
    as Hsubs.
  { intros sub o Hin Ho. rewrite markDirty_subs_lookup.
    change (subscribers s0) with (subscribers s). change (subs s0) with (subs s).
    rewrite decide_True by done. by rewrite Ho. }
  assert (dbs (markDirty name s0) = <[name := db]> (dbs s)) as Hdbs by done.
  eexists _, _, _. split; [reflexivity|]. split; [done|]. split; [done|].
  split; [done|]. split; [done|].
  unfold DropDB. rewrite Hdbs, lookup_insert_eq.
  split; [reflexivity|].
  set (s1 := set_dbs (delete name (<[name := db]> (dbs s))) (markDirty name s0)).
  split.
  { change (dbs (markDirty name s1)) with (delete name (<[name := db]> (dbs s))).
    by rewrite delete_insert_eq, delete_id. }
  split; [done|]. split; [done|]. intros sub o Hin Ho.
  rewrite markDirty_subs_lookup.
  change (subscribers s1) with (subscribers s).
  change (subs s1) with (subs (markDirty name s0)).
  rewrite decide_True by done. by rewrite (Hsubs sub o).
Qed.

Lemma CreateDB_then_DropDB_witness :
  ∃ db s1 s2,
    CreateDB create_ok "db" (NewStore "/data" true) = (inr db, s1) ∧
    DropDB None "db" s1 = (None, s2) ∧ dbs s2 = ∅.
Proof.
  destruct (CreateDB_then_DropDB create_ok "db" (NewStore "/data" true))
    as (db & s1 & s2 & H1 & _ & _ & _ & _ & H2 & H3 & _); try reflexivity.
  exists db, s1, s2. split; [exact H1|]. split; [exact H2|]. exact H3.
Defined.

(** X9. [CreateDB] and [DropDB] change the store only when they succeed:
    a failed call leaves every field as it was, so no subscriber is
    notified of it.  [CreateDB] never replaces a database that exists,
    and [DropDB] fails either with [ErrDatabaseNotFound], when the name is
    unknown, or with the error of [os.RemoveAll], wrapped, in which case
    the database stays registered. *)
Theorem failed_CreateDB_DropDB_change_nothing (env : CreateEnv)
    (r : option error) (name : string) (s : Store) :
  (∀ e, (CreateDB env name s).1 = inl e → (CreateDB env name s).2 = s) ∧
  (∀ db, (CreateDB env name s).1 = inr db → dbs s !! name = None) ∧
  (∀ e, (DropDB r name s).1 = Some e →
     (DropDB r name s).2 = s ∧
     (dbs s !! name = None ∧ e = ErrDatabaseNotFound ∨
      is_Some (dbs s !! name) ∧ ∃ e', r = Some e' ∧ e = Errorf "remove db path" e')) ∧
  ((DropDB r name s).1 = None → is_Some (dbs s !! name) ∧ r = None).
Proof.
  unfold CreateDB, DropDB. split; [|split; [|split]].
  - intros e. by repeat case_match.
  - intros db. by repeat case_match.
  - intros e. destruct (dbs s !! name) as [db|]; [|intros [= <-]; by eauto].
    destruct r as [e'|]; [|done]. intros [= <-]. split; [done|]. right. by eauto.
  - destruct (dbs s !! name) as [db|]; [|done]. destruct r; [done|]. by eauto.
Qed.

(** X10. [CreateDBIfNotExists] is idempotent: once it has returned a
    database, calling it again for the same name returns the same database
    and leaves the store as it is, without any call to the operating
    system (the environment of the second call does not matter).  It is
    [CreateDB] when the name is unknown and the identity when it is
    known. *)
Theorem CreateDBIfNotExists_idempotent (env env' : CreateEnv) (name : string)
    (s s1 : Store) (db : DB) :
  CreateDBIfNotExists env name s = (inr db, s1) →
  CreateDBIfNotExists env' name s1 = (inr db, s1) ∧
  (dbs s !! name = None → CreateDB env name s = (inr db, s1)) ∧
  (is_Some (dbs s !! name) → s1 = s ∧ dbs s !! name = Some db).
Proof.
  intros H. destruct (CreateDBIfNotExists_inr _ _ _ _ _ H) as (Hdb & _ & _ & Hcase).
  split; [by apply CreateDBIfNotExists_existing|]. split.
  - intros Hnone. rewrite <- H. unfold CreateDB, CreateDBIfNotExists.
    by rewrite Hnone.
  - intros [db' Hsome]. destruct Hcase as [[? ?]|[Hnone _]]; [done|congruence].
Qed.

Lemma CreateDBIfNotExists_idempotent_witness :
  let r := CreateDBIfNotExists create_ok "db" (NewStore "/data" true) in
  CreateDBIfNotExists (mkCreateEnv (Some (ErrExternal "mkdir")) None None) "db" r.2
    = (inr (NewDB "db" "/data/dbs/db"), r.2).
Proof.
  intros r.
  destruct (CreateDBIfNotExists_idempotent create_ok
              (mkCreateEnv (Some (ErrExternal "mkdir")) None None) "db"
              (NewStore "/data" true) r.2 (NewDB "db" "/data/dbs/db")) as [H _].
  - reflexivity.
  - exact H.
Defined.

(** X11. A DropDB frame of the stream never fails because the database is
    unknown: the only error it returns is the one of [os.RemoveAll],
    wrapped twice, and then the store is unchanged.  When it returns nil the
    database is gone and the other databases are untouched, and the same
    frame processed again is a no-op. *)
Theorem processDropDBStreamFrame_result (r r' : option error) (name : string)
    (s : Store) :
  ((processDropDBStreamFrame r name s).1 = None →
     dbs (processDropDBStreamFrame r name s).2 = delete name (dbs s) ∧
     processDropDBStreamFrame r' name (processDropDBStreamFrame r name s).2
       = (None, (processDropDBStreamFrame r name s).2)) ∧
  (∀ e, (processDropDBStreamFrame r name s).1 = Some e →
     (processDropDBStreamFrame r name s).2 = s ∧ is_Some (dbs s !! name) ∧
     ∃ e', r = Some e' ∧ e = Errorf "drop database" (Errorf "remove db path" e')).
Proof.
  unfold processDropDBStreamFrame at 1 2 4 5 6 7. unfold DropDB.
  destruct (dbs s !! name) as [db|] eqn:Hdb.
  - destruct r as [e'|]; simpl.
    + split; [done|]. intros e [= <-]. by eauto.
    + split; [|done]. intros _. split; [done|].
      apply processDropDBStreamFrame_unknown. simpl. apply lookup_delete_eq.
  - simpl. split; [|done]. intros _. split; [by rewrite delete_id|].
    by apply processDropDBStreamFrame_unknown.
Qed.

(** ** Retention, on any store *)

(** X12. [Store.EnforceRetention] returns nil whatever the per-DB calls
    return.  With [Retention <= 0] the store is left alone; otherwise every
    database is handed once to [DB.EnforceRetention] with the cut-off time
    [now - Retention], also the ones that come after a failure, and nothing
    but the databases changes. *)
Theorem EnforceRetention_every_database (f : Z → DB → option error * DB)
    (now : Z) (s : Store) :
  (Store_EnforceRetention f now s).1 = None ∧
  (Retention s ≤ 0 → (Store_EnforceRetention f now s).2 = s) ∧
  (Retention s > 0 →
     dbs (Store_EnforceRetention f now s).2
       = (λ db, (f (now - Retention s) db).2) <$> dbs s) ∧
  control (Store_EnforceRetention f now s).2 = control s ∧
  registry (Store_EnforceRetention f now s).2 = registry s.
Proof.
  split; [apply Store_EnforceRetention_nil|]. split; [|split; [|split]].
  - intros Hr. unfold Store_EnforceRetention. by rewrite decide_True.
  - apply Store_EnforceRetention_every_db.
  - apply control_Store_EnforceRetention.
  - unfold Store_EnforceRetention. case_decide; [done|].
    by destruct (retention_loop _ _ _ _).
Qed.

(** ** The position map *)

Lemma foldl_insert_lookup {A B : Type} (key : string * A → string) (val : A → B)
    (l : list (string * A)) :
  ∀ m : gmap string B,
  (∀ kd, kd ∈ l → key kd = kd.1) → NoDup l.*1 →
  (∀ k a, (k, a) ∈ l →
     foldl (λ m kd, <[key kd := val kd.2]> m) m l !! k = Some (val a)) ∧
  (∀ k, k ∉ l.*1 → foldl (λ m kd, <[key kd := val kd.2]> m) m l !! k = m !! k).
Proof.
  induction l as [|[k0 a0] l IH]; intros m Hkey Hnd.
  - split; [intros k a Hin; by apply elem_of_nil in Hin | done].
  - rewrite fmap_cons in Hnd. apply NoDup_cons in Hnd as [Hk0 Hnd].
    cbn [foldl]. rewrite (Hkey (k0, a0)) by (apply elem_of_cons; by left).
    destruct (IH (<[k0 := val a0]> m)) as [IH1 IH2]; [|done|].
    { intros kd Hkd. apply Hkey. apply elem_of_cons. by right. }
    split.
    + intros k a [Heq|Hin]%elem_of_cons.
      * injection Heq as -> ->. rewrite IH2 by done. apply lookup_insert_eq.
      * by apply IH1.
    + intros k Hk. rewrite fmap_cons in Hk.
      apply not_elem_of_cons in Hk as [Hne Hk].
      rewrite IH2 by done. by apply lookup_insert_ne.
Qed.

(** X13. When every database is stored under its own name, [PosMap] has
    exactly the names of the store and gives each the position of its
    database. *)
Theorem PosMap_positions (s : Store) :
  names_ok s → PosMap s = db_pos <$> dbs s.
Proof.
  intros Hn. unfold PosMap.
  destruct (foldl_insert_lookup (λ kd : string * DB, db_name kd.2) db_pos
              (map_to_list (dbs s)) ∅) as [H1 H2].
  { intros [k db] Hin. apply elem_of_map_to_list in Hin. by apply Hn. }
  { apply NoDup_fst_map_to_list. }
  apply map_eq. intros k. rewrite lookup_fmap.
  destruct (dbs s !! k) as [db|] eqn:Hk; simpl.
  - apply H1. by apply elem_of_map_to_list.
  - rewrite H2; [done|]. intros [[k' db] [-> Hin]]%list_elem_of_fmap.
    apply elem_of_map_to_list in Hin. simpl in *. congruence.
Qed.

Lemma PosMap_positions_witness :
  PosMap replica = db_pos <$> dbs replica.
Proof.
  apply PosMap_positions. intros k db. unfold replica. simpl.
  intros [<- <-]%lookup_singleton_Some. reflexivity.
Defined.

(** ** What a frame does to the rest of the store *)




(** ** Writing the LTX file *)

(** The function for a frame of another node, from the point where the
    position has been checked, on a database that holds no HALT lock. *)
Lemma processLTXStreamFrame_write (env : FrameEnv) (name : string)
    (src : Reader) (s : Store) (db : DB) (hdr : Header) :
  dbs s !! name = Some db → rd_header src = inr hdr →
  env_AcquireWriteLock env = None → NodeID hdr ≠ id s →
  db_remoteHaltLock db = None →
  IsSnapshot hdr = true ∨ db_pos db = expectedPos hdr →
  processLTXStreamFrame env name src s =
    ((write_and_apply env hdr src db).1,
     set_dbs (<[name := (write_and_apply env hdr src db).2]> (dbs s)) s).
Proof.
  intros Hdb Hh Hl Hne Hhalt Hpos.
  rewrite (processLTXStreamFrame_locked env name src s s db hdr)
    by (done || by apply CreateDBIfNotExists_existing).
  rewrite process_locked_foreign by done.
  assert (unhalt env db = (None, db)) as -> by (unfold unhalt; by rewrite Hhalt).
  rewrite and_then_None by done. cbn [snd].
  assert (check_position hdr db = (None, db)) as ->.
  { unfold check_position. destruct Hpos as [->|Hpos]; [done|].
    destruct (IsSnapshot hdr); [done|]. simpl.
    by rewrite decide_False by (by intros ?). }
  by rewrite and_then_None by done.
Qed.

Lemma set_db_ltx_same (db : DB) : set_db_ltx (db_ltx db) db = db.
Proof. by destruct db. Qed.

Lemma os_Remove_tmp (fail : string → option error) (tmp : string) (ent : Dirent)
    (d : gmap string Dirent) :
  fail tmp = None → d !! tmp = None →
  (os_Remove fail tmp (<[tmp := ent]> d)).2 = d.
Proof.
  intros Hf Hd. unfold os_Remove. rewrite Hf, lookup_insert_eq. cbn [snd].
  by rewrite delete_insert_eq, delete_id.
Qed.

(** When a step before the rename fails, the deferred removal of the
    temporary file puts the directory back as it was. *)
Lemma write_and_apply_before_rename (env : FrameEnv) (hdr : Header)
    (src : Reader) (db : DB) :
  let file := FormatFilename (MinTXID hdr) (MaxTXID hdr) in
  let tmp := tmpName file (env_rand env) in
  db_ltx db !! tmp = None → env_Remove env tmp = None →
  is_Some (env_Create env) ∨ is_Some (env_Copy env) ∨
  is_Some (env_Sync env) ∨ is_Some (env_Rename env) →
  is_Some (write_and_apply env hdr src db).1 ∧
  (write_and_apply env hdr src db).2 = db.
Proof.
  intros file tmp Habs Hrm Hfail.
  unfold write_and_apply, install_ltx, guard_call. cbv zeta. fold file. fold tmp.
  destruct (env_Create env) as [e|].
  { erewrite and_then_Some by done. cbn [fst snd].
    rewrite os_Remove_absent by done. split; [by eauto|]. apply set_db_ltx_same. }
  rewrite and_then_None by done. cbn [snd].
  destruct (env_Copy env) as [e|].
  { erewrite and_then_Some by done. cbn [fst snd db_ltx set_db_ltx].
    rewrite os_Remove_tmp by done. split; [by eauto|].
    change (set_db_ltx (db_ltx db) (set_db_ltx _ db)) with (set_db_ltx (db_ltx db) db).
    apply set_db_ltx_same. }
  rewrite and_then_None by done. cbn [snd].
  destruct (env_Sync env) as [e|].
  { erewrite and_then_Some by done. cbn [fst snd db_ltx set_db_ltx].
    rewrite insert_insert_eq, os_Remove_tmp by done. split; [by eauto|].
    change (set_db_ltx (db_ltx db) (set_db_ltx _ (set_db_ltx _ db)))
      with (set_db_ltx (db_ltx db) db).
    apply set_db_ltx_same. }
  rewrite and_then_None by done. cbn [snd].
  destruct (env_Rename env) as [e|].
  { erewrite and_then_Some by done. cbn [fst snd db_ltx set_db_ltx].
    rewrite insert_insert_eq, os_Remove_tmp by done. split; [by eauto|].
    change (set_db_ltx (db_ltx db) (set_db_ltx _ (set_db_ltx _ db)))
      with (set_db_ltx (db_ltx db) db).
    apply set_db_ltx_same. }
  destruct Hfail as [[? [=]]|[[? [=]]|[[? [=]]|[? [=]]]]].
Qed.

(** X15. Writing the file is all or nothing up to the rename: when
    creating, writing, syncing or renaming the temporary file fails, the
    function returns an error and the store is exactly as before, the
    temporary file having been removed by the deferred [os.Remove]. *)
Theorem failed_write_leaves_store (env : FrameEnv) (name : string)
    (src : Reader) (s : Store) (db : DB) (hdr : Header) :
  dbs s !! name = Some db → rd_header src = inr hdr →
  env_AcquireWriteLock env = None → NodeID hdr ≠ id s →
  db_remoteHaltLock db = None →
  IsSnapshot hdr = true ∨ db_pos db = expectedPos hdr →
  db_ltx db !! tmpName (FormatFilename (MinTXID hdr) (MaxTXID hdr)) (env_rand env)
    = None →
  env_Remove env (tmpName (FormatFilename (MinTXID hdr) (MaxTXID hdr)) (env_rand env))
    = None →
  is_Some (env_Create env) ∨ is_Some (env_Copy env) ∨
  is_Some (env_Sync env) ∨ is_Some (env_Rename env) →
  is_Some (processLTXStreamFrame env name src s).1 ∧
  (processLTXStreamFrame env name src s).2 = s.
Proof.
  intros Hdb Hh Hl Hne Hhalt Hpos Habs Hrm Hfail.
  rewrite (processLTXStreamFrame_write env name src s db hdr) by done.
  destruct (write_and_apply_before_rename env hdr src db Habs Hrm Hfail)
    as [Herr ->].
  split; [done|]. by apply set_dbs_insert_same.
Qed.

(** X16. Once the rename has succeeded the file stays: when the sync
    of the directory fails afterwards, the function returns that error
    wrapped, the file is in the LTX directory under its canonical name, no
    temporary file is left, and the position of the database has not
    moved. *)
Theorem failed_sync_dir_leaves_file (env : FrameEnv) (name : string)
    (src : Reader) (s : Store) (db : DB) (hdr : Header) (e : error) :
  dbs s !! name = Some db → rd_header src = inr hdr →
  env_AcquireWriteLock env = None → NodeID hdr ≠ id s →
  db_remoteHaltLock db = None →
  IsSnapshot hdr = true ∨ db_pos db = expectedPos hdr →
  db_ltx db !! tmpName (FormatFilename (MinTXID hdr) (MaxTXID hdr)) (env_rand env)
    = None →
  env_Create env = None → env_Copy env = None → env_Sync env = None →
  env_Rename env = None → env_SyncDir env = Some e →
  processLTXStreamFrame env name src s =
    (Some (Errorf "sync ltx dir" e),
     set_dbs (<[name :=
        set_db_ltx (<[FormatFilename (MinTXID hdr) (MaxTXID hdr) :=
                       EntFile (Some (mkLTXData hdr (rd_post_apply_checksum src)))]>
                      (db_ltx db)) db]> (dbs s)) s).
Proof.
  intros Hdb Hh Hl Hne Hhalt Hpos Habs Hc Hcp Hs Hr Hsd.
  rewrite (processLTXStreamFrame_write env name src s db hdr) by done.
  unfold write_and_apply, install_ltx, guard_call. cbv zeta.
  rewrite Hc, Hcp, Hs, Hr, Hsd. rewrite !and_then_None by done.
  erewrite and_then_Some by done. cbn [fst snd db_ltx set_db_ltx].
  rewrite installed_dir, delete_id by done.
  rewrite os_Remove_absent.
  - done.
  - rewrite lookup_insert_ne by (symmetry; apply tmpName_ne). done.
Qed.

Lemma failed_write_leaves_store_witness :
  let s := (CreateDB create_ok "db" (NewStore "/data" true)).2 in
  let env := mkFrameEnv create_ok None None None None 0
               None (Some (ErrExternal "disk full")) None None None None
               (λ _, None) None in
  (processLTXStreamFrame env "db" (mkReader (inr (mkHeader 1 1 0 1 true)) 17) s).2
    = s.
Proof.
  intros s env.
  refine (proj2 (failed_write_leaves_store env "db"
    (mkReader (inr (mkHeader 1 1 0 1 true)) 17) s (NewDB "db" "/data/dbs/db")
    (mkHeader 1 1 0 1 true) _ _ _ _ _ _ _ _ _)).
  - reflexivity.
  - reflexivity.
  - reflexivity.
  - discriminate.
  - reflexivity.
  - left. reflexivity.
  - apply lookup_empty.
  - reflexivity.
  - right. left. eexists. reflexivity.
Defined.

Lemma failed_sync_dir_leaves_file_witness :
  let s := (CreateDB create_ok "db" (NewStore "/data" true)).2 in
  let env := mkFrameEnv create_ok None None None None 0
               None None None None (Some (ErrExternal "fsync")) None
               (λ _, None) None in
  (processLTXStreamFrame env "db" (mkReader (inr (mkHeader 1 1 0 1 true)) 17) s).1
    = Some (Errorf "sync ltx dir" (ErrExternal "fsync")).
Proof.
  intros s env.
  rewrite (failed_sync_dir_leaves_file env "db"
    (mkReader (inr (mkHeader 1 1 0 1 true)) 17) s (NewDB "db" "/data/dbs/db")
    (mkHeader 1 1 0 1 true) (ErrExternal "fsync")).
  - reflexivity.
  - reflexivity.
  - reflexivity.
  - reflexivity.
  - discriminate.
  - reflexivity.
  - left. reflexivity.
  - apply lookup_empty.
  - reflexivity.
  - reflexivity.
  - reflexivity.
  - reflexivity.
  - reflexivity.
Defined.

(** ** A term as primary *)



(** The loop consumes events up to the one that makes it return. *)
Lemma lease_loop_app (ttl : Z) (evs evs' : list event) :
  ∀ waitDur,
  lease_loop ttl waitDur (evs ++ evs') =
    match (lease_loop ttl waitDur evs).1 with
    | Returned _ _ => lease_loop ttl waitDur evs
    | Blocked w =>
        ((lease_loop ttl w evs').1,
         (lease_loop ttl waitDur evs).2 ++ (lease_loop ttl w evs').2)
    end.
Proof.
  induction evs as [|ev evs IH]; intros waitDur.
  - simpl. by destruct (lease_loop ttl waitDur evs').
  - destruct ev as [renew since| |]; [|done..].
    rewrite <- app_comm_cons. cbn [lease_loop].
    destruct (on_timer ttl renew since) as [w|err acts]; [|done].
    rewrite IH. by destruct (lease_loop ttl w evs) as [[e d|w0] a].
Qed.








(** ** Loops over the databases that stop at the first failure *)

Lemma Recover_loop_cases (f : DB → option error * DB) (l : list (string * DB)) :
  ∀ m : gmap string DB,
  (Forall (λ kd, (f kd.2).1 = None) l ∧
   Recover_loop f l m = (None, foldl (λ m kd, <[kd.1 := (f kd.2).2]> m) m l)) ∨
  (∃ pre k db post err,
     l = pre ++ (k, db) :: post ∧
     Forall (λ kd, (f kd.2).1 = None) pre ∧ (f db).1 = Some err ∧
     Recover_loop f l m =
       (Some (Errorf ("db " +:+ db_name (f db).2) err),
        foldl (λ m kd, <[kd.1 := (f kd.2).2]> m) m (pre ++ [(k, db)]))).
Proof.
  induction l as [|[k db] l IH]; intros m.
  - left. split; [constructor|done].
  - cbn [Recover_loop fst snd]. destruct (f db).1 as [err|] eqn:Hf.
    + right. exists [], k, db, l, err. by repeat split.
    + destruct (IH (<[k := (f db).2]> m))
        as [[Hall Heq]|(pre & k' & db' & post & err & -> & Hpre & Hfail & Heq)].
      * left. split; [by constructor|done].
      * right. exists ((k, db) :: pre), k', db', post, err.
        split; [done|]. split; [by constructor|]. by split.
Qed.

(** X19. [Recover] goes through the databases in the order of [DBs] and
    stops at the first one whose recovery fails: it returns nil exactly
    when every database recovers, and then every database has been
    recovered; otherwise it returns the error of the first failure, wrapped
    with the name of that database, the databases up to and including that
    one have been through [DB.Recover], and the ones after it have not been
    touched. *)
Theorem Recover_stops_at_first_failure (f : DB → option error * DB) (s : Store) :
  ((Store_Recover f s).1 = None ↔
     ∀ k db, dbs s !! k = Some db → (f db).1 = None) ∧
  ((Store_Recover f s).1 = None →
     dbs (Store_Recover f s).2 = (λ db, (f db).2) <$> dbs s) ∧
  (∀ e, (Store_Recover f s).1 = Some e →
     ∃ pre k db post err,
       DBs s = pre ++ (k, db) :: post ∧
       Forall (λ kd, (f kd.2).1 = None) pre ∧ (f db).1 = Some err ∧
       e = Errorf ("db " +:+ db_name (f db).2) err ∧
       (∀ k' db', (k', db') ∈ pre ++ [(k, db)] →
          dbs (Store_Recover f s).2 !! k' = Some (f db').2) ∧
       (∀ k' db', (k', db') ∈ post →
          dbs (Store_Recover f s).2 !! k' = Some db')) ∧
  control (Store_Recover f s).2 = control s ∧
  registry (Store_Recover f s).2 = registry s.
Proof.
  unfold Store_Recover. cbn [fst snd dbs set_dbs].
  assert (NoDup (DBs s).*1) as Hnd by apply NoDup_fst_map_to_list.
  assert (∀ k db, (k, db) ∈ DBs s ↔ dbs s !! k = Some db) as Hin
    by (intros k db; apply elem_of_map_to_list).
  destruct (Recover_loop_cases f (DBs s) (dbs s))
    as [[Hall Heq]|(pre & k & db & post & err & Hl & Hpre & Hfail & Heq)];
    rewrite Heq; cbn [fst snd].
  - split; [|split; [|split; [|done]]].
    + split; [|done]. intros _ k db Hk%Hin.
      rewrite Forall_forall in Hall. apply (Hall (k, db) Hk).
    + intros _.
      destruct (foldl_insert_lookup (λ kd : string * DB, kd.1) (λ db, (f db).2)
                  (DBs s) (dbs s)) as [H1 H2]; [done|done|].
      apply map_eq. intros k. rewrite lookup_fmap.
      destruct (dbs s !! k) as [db|] eqn:Hk; simpl.
      * apply H1. by apply Hin.
      * rewrite H2; [done|]. intros [[k' db] [-> Hk']]%list_elem_of_fmap.
        apply Hin in Hk'. simpl in *. congruence.
    + done.
  - assert ((k, db) ∈ DBs s) as Hkdb.
    { rewrite Hl. apply elem_of_app. right. by left. }
    rewrite Hl, fmap_app, fmap_cons in Hnd.
    assert (NoDup (pre ++ [(k, db)]).*1) as Hnd1.
    { rewrite fmap_app. simpl.
      apply NoDup_app in Hnd as (Hpre_nd & Hdisj & Hpost_nd).
      apply NoDup_app. split; [done|]. split.
      - intros x Hx [->|?%elem_of_nil]%elem_of_cons; [|done].
        apply (Hdisj k Hx). by left.
      - apply NoDup_singleton. }
    destruct (foldl_insert_lookup (λ kd : string * DB, kd.1) (λ db, (f db).2)
                (pre ++ [(k, db)]) (dbs s)) as [H1 H2]; [done|done|].
    split; [|split; [done|split; [|done]]].
    + split; [done|]. intros Hall. rewrite (Hall k db) in Hfail; [done|].
      by apply Hin.
    + intros e [= <-]. exists pre, k, db, post, err.
      split; [done|]. split; [done|]. split; [done|]. split; [done|].
      split; [exact H1|].
      intros k' db' Hpost. rewrite H2.
      * apply Hin. rewrite Hl. apply elem_of_app. right. by right.
      * rewrite fmap_app. simpl. intros Hk'.
        apply NoDup_app in Hnd as (_ & Hdisj & Hpost_nd).
        apply NoDup_cons in Hpost_nd as [Hk_post _].
        assert (k' ∈ post.*1) as Hk'post.
        { apply list_elem_of_fmap. by exists (k', db'). }
        apply elem_of_app in Hk' as [Hk'|[->|?%elem_of_nil]%elem_of_cons];
          [|done|done].
        apply (Hdisj k' Hk'). by right.
Qed.

Lemma foldl_insert_elem {B : Type} (val : string → B) (l : list string) :
  ∀ (m : gmap string B) (n : string),
  (n ∈ l → foldl (λ m n, <[n := val n]> m) m l !! n = Some (val n)) ∧
  (n ∉ l → foldl (λ m n, <[n := val n]> m) m l !! n = m !! n).
Proof.
  induction l as [|n0 l IH]; intros m n.
  - split; [by intros ?%elem_of_nil|done].
  - cbn [foldl]. destruct (IH (<[n0 := val n0]> m) n) as [IH1 IH2]. split.
    + intros Hin. destruct (decide (n ∈ l)) as [Hl|Hl]; [by apply IH1|].
      apply elem_of_cons in Hin as [->|?]; [|done].
      rewrite IH2 by done. apply lookup_insert_eq.
    + intros [Hne Hl]%not_elem_of_cons. rewrite IH2 by done.
      by apply lookup_insert_ne.
Qed.

Lemma openDatabases_loop_cases (open : string → string → option error * DB)
    (s : Store) (fis : list string) :
  ∀ m : gmap string DB,
  let ins := λ (m : gmap string DB) (n : string),
    <[db_name (open n (DBPath s n)).2 := (open n (DBPath s n)).2]> m in
  (Forall (λ n, (open n (DBPath s n)).1 = None) fis ∧
   openDatabases_loop open fis (set_dbs m s) = (None, set_dbs (foldl ins m fis) s)) ∨
  (∃ pre n post err,
     fis = pre ++ n :: post ∧
     Forall (λ n, (open n (DBPath s n)).1 = None) pre ∧
     (open n (DBPath s n)).1 = Some err ∧
     openDatabases_loop open fis (set_dbs m s) =
       (Some (Errorf ("open database(" +:+ n +:+ ")") err),
        set_dbs (foldl ins m pre) s)).
Proof.
  induction fis as [|n fis IH]; intros m ins.
  - left. split; [constructor|done].
  - cbn [openDatabases_loop]. unfold openDatabase.
    change (DBPath (set_dbs m s) n) with (DBPath s n).
    destruct (open n (DBPath s n)).1 as [err|] eqn:Hf; cbn [fst snd].
    + right. exists [], n, fis, err. by repeat split.
    + change (set_dbs ?m' (set_dbs m s)) with (set_dbs m' s).
      cbn [dbs set_dbs].
      destruct (IH (ins m n))
        as [[Hall Heq]|(pre & n' & post & err & -> & Hpre & Hfail & Heq)].
      * left. split; [by constructor|done].
      * right. exists (n :: pre), n', post, err.
        split; [done|]. split; [by constructor|]. by split.
Qed.

(** X20. [openDatabases] opens the entries of the database directory in
    the order [os.ReadDir] gives them and stops at the first that fails to
    open: the error names that entry, the databases opened before it stay
    in the store, and the entries after it are not opened.  When every
    entry opens, each is in the store under its name.  A failure to make or
    to read the directory leaves the store as it was. *)
Theorem openDatabases_stops_at_first_failure
    (open : string → string → option error * DB)
    (mkdirAll : option error) (readDir : error + list string) (s : Store) :
  (∀ n p, db_name (open n p).2 = n) →
  (is_Some mkdirAll ∨ (∃ e, readDir = inl e) →
     is_Some (openDatabases open mkdirAll readDir s).1 ∧
     (openDatabases open mkdirAll readDir s).2 = s) ∧
  (∀ fis, mkdirAll = None → readDir = inr fis →
     Forall (λ n, (open n (DBPath s n)).1 = None) fis →
     (openDatabases open mkdirAll readDir s).1 = None ∧
     (∀ n, n ∈ fis →
        dbs (openDatabases open mkdirAll readDir s).2 !! n
          = Some (open n (DBPath s n)).2) ∧
     (∀ n, n ∉ fis →
        dbs (openDatabases open mkdirAll readDir s).2 !! n = dbs s !! n)) ∧
  (∀ pre n post err, mkdirAll = None → readDir = inr (pre ++ n :: post) →
     Forall (λ n, (open n (DBPath s n)).1 = None) pre →
     (open n (DBPath s n)).1 = Some err →
     (openDatabases open mkdirAll readDir s).1
       = Some (Errorf ("open database(" +:+ n +:+ ")") err) ∧
     (∀ k, k ∈ pre →
        dbs (openDatabases open mkdirAll readDir s).2 !! k
          = Some (open k (DBPath s k)).2) ∧
     (∀ k, k ∉ pre →
        dbs (openDatabases open mkdirAll readDir s).2 !! k = dbs s !! k)) ∧
  control (openDatabases open mkdirAll readDir s).2 = control s.
Proof.
  intros Hname.
  assert (∀ fis m,
    foldl (λ (m : gmap string DB) (n : string),
       <[db_name (open n (DBPath s n)).2 := (open n (DBPath s n)).2]> m) m fis
    = foldl (λ (m : gmap string DB) (n : string),
       <[n := (open n (DBPath s n)).2]> m) m fis) as Hfold.
  { induction fis as [|n fis IH]; intros m; [done|].
    cbn [foldl]. by rewrite Hname, IH. }
  assert (∀ fis, openDatabases_loop open fis s
                 = openDatabases_loop open fis (set_dbs (dbs s) s)) as Hs
    by (intros fis; by rewrite set_dbs_same).
  split; [|split; [|split]].
  - intros [[e ->]|[e ->]]; [done|]. unfold openDatabases.
    destruct mkdirAll; by eauto.
  - intros fis -> -> Hall. unfold openDatabases. rewrite Hs.
    destruct (openDatabases_loop_cases open s fis (dbs s))
      as [[_ ->]|(pre & n & post & err & -> & _ & Hfail & _)].
    + cbn [fst snd dbs set_dbs]. rewrite Hfold. split; [done|].
      split; intros n Hn;
        by apply (foldl_insert_elem (λ n, (open n (DBPath s n)).2) fis (dbs s) n).
    + rewrite Forall_forall in Hall. rewrite Hall in Hfail; [done|].
      apply elem_of_app. right. by left.
  - intros pre n post err -> -> Hpre Hfail. unfold openDatabases. rewrite Hs.
    destruct (openDatabases_loop_cases open s (pre ++ n :: post) (dbs s))
      as [[Hall _]|(pre' & n' & post' & err' & Heq & Hpre' & Hfail' & ->)].
    + rewrite Forall_forall in Hall. rewrite Hall in Hfail; [done|].
      apply elem_of_app. right. by left.
    + assert (pre' = pre ∧ n' = n) as [-> ->].
      { clear -Heq Hpre Hfail Hpre' Hfail'. revert pre' Heq Hpre'.
        induction Hpre as [|x pre Hx Hpre IH]; intros pre' Heq Hpre'.
        - destruct pre' as [|y pre']; [by injection Heq as ->|].
          injection Heq as -> _. apply Forall_cons in Hpre' as [Hy _]. congruence.
        - destruct pre' as [|y pre'].
          + injection Heq as <- _. congruence.
          + injection Heq as <- Heq. apply Forall_cons in Hpre' as [_ Hpre'].
            destruct (IH pre' Heq Hpre') as [-> ->]. done. }
      rewrite Hfail in Hfail'. injection Hfail' as <-.
      cbn [fst snd dbs set_dbs]. rewrite Hfold. split; [done|].
      split; intros k Hk;
        by apply (foldl_insert_elem (λ n, (open n (DBPath s n)).2) pre (dbs s) k).
  - unfold openDatabases. destruct mkdirAll; [done|]. destruct readDir as [e|fis]; [done|].
    rewrite Hs.
    by destruct (openDatabases_loop_cases open s fis (dbs s))
      as [[_ ->]|(pre & n & post & err & _ & _ & _ & ->)].
Qed.

Lemma openDatabases_stops_at_first_failure_witness :
  let open := λ (n p : string),
    (if decide (n = "b") then Some (ErrExternal "corrupt") else None,
     NewDB n p) in
  let r := openDatabases open None (inr ["a"; "b"; "c"]) (NewStore "/data" true) in
  r.1 = Some (Errorf "open database(b)" (ErrExternal "corrupt")) ∧
  dbs r.2 !! "a" = Some (NewDB "a" "/data/dbs/a") ∧
  dbs r.2 !! "c" = None.
Proof.
  intros open r.
  destruct (openDatabases_stops_at_first_failure open None (inr ["a"; "b"; "c"])
              (NewStore "/data" true)) as (_ & _ & H & _).
  - intros n p. reflexivity.
  - destruct (H ["a"] "b" ["c"] (ErrExternal "corrupt")) as (H1 & H2 & H3).
    + reflexivity.
    + reflexivity.
    + repeat constructor.
    + reflexivity.
    + split; [exact H1|]. split.
      * apply (H2 "a"). apply elem_of_cons. by left.
      * apply (H3 "c"). intros [?|?%elem_of_nil]%elem_of_cons; done.
Defined.

(** ** The node ID *)

Lemma string_app_cons (a : ascii) (s t : string) :
  String a s +:+ t = String a (s +:+ t).
Proof. done. Qed.

Lemma string_app_empty_r (s : string) : s +:+ "" = s.
Proof. induction s as [|a s IH]; [done|]. by rewrite string_app_cons, IH. Qed.

Lemma string_length_app (s t : string) :
  String.length (s +:+ t) = (String.length s + String.length t)%nat.
Proof.
  induction s as [|a s IH]; [done|]. rewrite string_app_cons. simpl. by rewrite IH.
Qed.

Lemma string_length_substring (m : nat) (s : string) :
  (String.length (substring 0 m s) ≤ m)%nat.
Proof.
  revert s. induction m as [|m IH]; intros [|a s]; simpl; try lia.
  specialize (IH s). lia.
Qed.

Lemma string_rev_app_app (s1 s2 t : string) :
  String.rev_app (s1 +:+ s2) t = String.rev_app s2 (String.rev_app s1 t).
Proof.
  revert t. induction s1 as [|a s1 IH]; intros t; [done|].
  rewrite string_app_cons. simpl. apply IH.
Qed.

Lemma string_rev_snoc (s : string) (c : ascii) :
  String.rev (s +:+ String c "") = String c (String.rev s).
Proof. unfold String.rev. by rewrite string_rev_app_app. Qed.

Lemma string_rev_app_rev_app (s t u : string) :
  String.rev_app (String.rev_app s t) u = String.rev_app t (s +:+ u).
Proof.
  revert t. induction s as [|a s IH]; intros t; [done|].
  simpl. by rewrite IH, string_app_cons.
Qed.

Lemma string_rev_involutive (s : string) : String.rev (String.rev s) = s.
Proof.
  unfold String.rev. rewrite string_rev_app_rev_app. simpl.
  apply string_app_empty_r.
Qed.

(** A byte that is neither white space nor part of a multi-byte rune is
    where trimming stops, from either end. *)
Lemma is_space2_ascii_l (a b : ascii) :
  (nat_of_ascii a < 128)%nat → is_space2 a b = false.
Proof.
  intros Ha. unfold is_space2. apply andb_false_iff. left.
  apply Nat.eqb_neq. lia.
Qed.

Lemma is_space2_ascii_r (a b : ascii) :
  (nat_of_ascii b < 128)%nat → is_space2 a b = false.
Proof.
  intros Hb. unfold is_space2. apply andb_false_iff. right.
  apply orb_false_iff. split; apply Nat.eqb_neq; lia.
Qed.

Lemma is_space3_ascii_l (a b c : ascii) :
  (nat_of_ascii a < 128)%nat → is_space3 a b c = false.
Proof.
  intros Ha. unfold is_space3.
  rewrite (proj2 (Nat.eqb_neq (nat_of_ascii a) 225)) by lia.
  rewrite (proj2 (Nat.eqb_neq (nat_of_ascii a) 226)) by lia.
  rewrite (proj2 (Nat.eqb_neq (nat_of_ascii a) 227)) by lia.
  done.
Qed.

Lemma is_space3_ascii_r (a b c : ascii) :
  (nat_of_ascii c < 128)%nat → is_space3 a b c = false.
Proof.
  intros Hc. unfold is_space3.
  rewrite (proj2 (Nat.eqb_neq (nat_of_ascii c) 128)) by lia.
  rewrite (proj2 (Nat.eqb_neq (nat_of_ascii c) 159)) by lia.
  rewrite (proj2 (Nat.eqb_neq (nat_of_ascii c) 168)) by lia.
  rewrite (proj2 (Nat.eqb_neq (nat_of_ascii c) 169)) by lia.
  rewrite (proj2 (Nat.eqb_neq (nat_of_ascii c) 175)) by lia.
  rewrite (proj2 (Nat.leb_gt _ _)) by lia.
  by rewrite !andb_false_r.
Qed.

Lemma TrimLeftSpace_plain (a : ascii) (s : string) :
  is_ascii_space a = false → (nat_of_ascii a < 128)%nat →
  TrimLeftSpace (String a s) = String a s.
Proof.
  intros Hsp Ha. cbn [TrimLeftSpace]. rewrite Hsp.
  destruct s as [|b s]; [done|]. rewrite is_space2_ascii_l by done.
  destruct s as [|c s]; [done|]. by rewrite is_space3_ascii_l by done.
Qed.

Lemma TrimLeftSpace_rev_plain (c : ascii) (s : string) :
  is_ascii_space c = false → (nat_of_ascii c < 128)%nat →
  TrimLeftSpace_rev (String c s) = String c s.
Proof.
  intros Hsp Hc. cbn [TrimLeftSpace_rev]. rewrite Hsp.
  destruct s as [|b s]; [done|]. rewrite is_space2_ascii_r by done.
  destruct s as [|a s]; [done|]. by rewrite is_space3_ascii_r by done.
Qed.

(** The digits written by [%X]. *)
Lemma hex_digit_upper_cases (x : Z) :
  0 ≤ x < 16 →
  hex_value (hex_digit_upper x) = Some x ∧
  is_ascii_space (hex_digit_upper x) = false ∧
  (nat_of_ascii (hex_digit_upper x) < 128)%nat.
Proof.
  intros Hx.
  assert (x = 0 ∨ x = 1 ∨ x = 2 ∨ x = 3 ∨ x = 4 ∨ x = 5 ∨ x = 6 ∨ x = 7 ∨
          x = 8 ∨ x = 9 ∨ x = 10 ∨ x = 11 ∨ x = 12 ∨ x = 13 ∨ x = 14 ∨ x = 15)
    as Hc by lia.
  repeat (destruct Hc as [->|Hc]; [vm_compute; repeat split; lia|]).
  subst x. vm_compute. repeat split; lia.
Qed.

Lemma hex_fixed_upper_S (d : nat) (z : Z) :
  hex_fixed_upper (S d) z
    = hex_fixed_upper d (z / 16) +:+ String (hex_digit_upper (z mod 16)) "".
Proof. done. Qed.

Lemma hex_fixed_upper_head (d : nat) (z : Z) :
  ∃ x rest, 0 ≤ x < 16 ∧ hex_fixed_upper (S d) z = String (hex_digit_upper x) rest.
Proof.
  revert z. induction d as [|d IH]; intros z.
  - exists (z mod 16), "". split; [apply Z.mod_pos_bound; lia|done].
  - destruct (IH (z / 16)) as (x & rest & Hx & Heq).
    rewrite hex_fixed_upper_S, Heq, string_app_cons. by eauto.
Qed.

Lemma hex_fixed_upper_length (d : nat) (z : Z) :
  String.length (hex_fixed_upper d z) = d.
Proof.
  revert z. induction d as [|d IH]; intros z; [done|].
  rewrite hex_fixed_upper_S, string_length_app, IH. simpl. lia.
Qed.

Lemma ParseUint16_go_app (s t : string) :
  ∀ acc,
  ParseUint16_go acc (s +:+ t) =
    match ParseUint16_go acc s with
    | inr v => ParseUint16_go v t
    | inl e => inl e
    end.
Proof.
  induction s as [|a s IH]; intros acc; [done|].
  rewrite string_app_cons. simpl.
  destruct (hex_value a); [|done]. case_decide; [done|]. apply IH.
Qed.

Lemma ParseUint16_go_hex (d : nat) :
  ∀ z acc,
  0 ≤ acc → 0 ≤ z →
  acc * 16 ^ Z.of_nat d + z mod 16 ^ Z.of_nat d < 2 ^ 64 →
  ParseUint16_go acc (hex_fixed_upper d z)
    = inr (acc * 16 ^ Z.of_nat d + z mod 16 ^ Z.of_nat d).
Proof.
  induction d as [|d IH]; intros z acc Hacc Hz Hlt.
  - simpl. rewrite Z.mod_1_r. f_equal. lia.
  - rewrite hex_fixed_upper_S, ParseUint16_go_app.
    assert (0 < 16 ^ Z.of_nat d) as Hpow by (apply Z.pow_pos_nonneg; lia).
    assert (16 ^ Z.of_nat (S d) = 16 * 16 ^ Z.of_nat d) as Hpow'.
    { rewrite Nat2Z.inj_succ, Z.pow_succ_r by lia. done. }
    assert (z mod 16 ^ Z.of_nat (S d)
            = z mod 16 + 16 * ((z / 16) mod 16 ^ Z.of_nat d)) as Hmod.
    { rewrite Hpow'. apply Z.rem_mul_r; lia. }
    pose proof (Z.mod_pos_bound z 16) as Hm16.
    pose proof (Z.mod_pos_bound (z / 16) (16 ^ Z.of_nat d) Hpow) as Hmd.
    rewrite Hmod, Hpow' in Hlt. rewrite Hmod, Hpow'.
    rewrite IH; [|done|apply Z.div_pos; lia|nia].
    cbn [ParseUint16_go].
    destruct (hex_digit_upper_cases (z mod 16)) as (-> & _ & _); [lia|].
    rewrite decide_False by nia. f_equal. nia.
Qed.

Lemma ParseUint16_format (i : Z) :
  0 ≤ i < 2 ^ 64 → ParseUint16 (hex_fixed_upper 16 i) = (i, None).
Proof.
  intros Hi. unfold ParseUint16.
  destruct (hex_fixed_upper_head 15 i) as (x & rest & _ & Heq).
  rewrite Heq at 1. rewrite ParseUint16_go_hex; try lia.
  - rewrite Z.mod_small; [done|]. change (16 ^ Z.of_nat 16) with (2 ^ 64). lia.
  - change (16 ^ Z.of_nat 16) with (2 ^ 64).
    pose proof (Z.mod_pos_bound i (2 ^ 64)). lia.
Qed.

Lemma TrimSpace_format (i : Z) :
  TrimSpace (format_id i) = hex_fixed_upper 16 i.
Proof.
  unfold TrimSpace, format_id, newline.
  destruct (hex_fixed_upper_head 15 i) as (x & rest & Hx & Heq).
  destruct (hex_digit_upper_cases x Hx) as (_ & Hsp & Hlt).
  assert (TrimLeftSpace (hex_fixed_upper 16 i +:+ String (ascii_of_nat 10) "")
          = hex_fixed_upper 16 i +:+ String (ascii_of_nat 10) "") as ->.
  { rewrite Heq, string_app_cons. by apply TrimLeftSpace_plain. }
  rewrite string_rev_snoc.
  assert (∀ t, TrimLeftSpace_rev (String (ascii_of_nat 10) t) = TrimLeftSpace_rev t)
    as -> by done.
  rewrite hex_fixed_upper_S, string_rev_snoc.
  destruct (hex_digit_upper_cases (i mod 16)) as (_ & Hsp' & Hlt');
    [apply Z.mod_pos_bound; lia|].
  rewrite TrimLeftSpace_rev_plain by done.
  rewrite <- string_rev_snoc. apply string_rev_involutive.
Qed.

Lemma BigEndian_Uint64_range (b : list Z) :
  Forall (λ x, 0 ≤ x < 256) b → 0 ≤ BigEndian_Uint64 b < 2 ^ 64.
Proof.
  intros Hb. unfold BigEndian_Uint64.
  assert (∀ l acc, Forall (λ x, 0 ≤ x < 256) l → 0 ≤ acc →
            0 ≤ foldl (λ acc x, acc * 256 + x) acc l
              < (acc + 1) * 256 ^ Z.of_nat (length l)) as Hfold.
  { induction l as [|x l IH]; intros acc Hl Hacc.
    - simpl. lia.
    - apply Forall_cons in Hl as [Hx Hl]. cbn [foldl length].
      destruct (IH (acc * 256 + x) Hl) as [H0 H1]; [lia|].
      split; [done|]. eapply Z.lt_le_trans; [exact H1|].
      rewrite Nat2Z.inj_succ, Z.pow_succ_r by lia.
      assert (0 < 256 ^ Z.of_nat (length l)) by (apply Z.pow_pos_nonneg; lia).
      nia. }
  destruct (Hfold (take 8 b) 0) as [H0 H1]; [by apply Forall_take|done|].
  split; [done|]. eapply Z.lt_le_trans; [exact H1|].
  rewrite Z.add_0_l, Z.mul_1_l. change (2 ^ 64) with (256 ^ 8).
  apply Z.pow_le_mono_r; [lia|]. rewrite length_take. lia.
Qed.

(** X21. The ID that [initID] generates and writes is the ID that
    [initID] reads back: with 16 random bytes, the ID is the big-endian
    value of the first eight, a [uint64]; the file holds it as 16 upper-case
    hex digits and a line feed, also when the [Sync] or the [Close] that
    follows fails; and an [initID] that finds this file sets [s.id] to the
    same value and leaves the file alone. *)
Theorem initID_round_trip (env env' : InitEnv) (b : list Z) (s s' : Store) :
  ie_ReadFile env = None → ie_rand env = inr b →
  length b = 16%nat → Forall (λ x, 0 ≤ x < 256) b →
  ie_Create env = None → ie_Fprintf env = None →
  ie_ReadFile env' = None →
  0 ≤ BigEndian_Uint64 b < 2 ^ 64 ∧
  (initID env None s).1.2 = Some (format_id (BigEndian_Uint64 b)) ∧
  (ie_Sync env = None → ie_Close env = None →
     initID env None s
       = (None, Some (format_id (BigEndian_Uint64 b)),
          set_id (BigEndian_Uint64 b) s)) ∧
  (is_Some (ie_Sync env) ∨ is_Some (ie_Close env) →
     is_Some (initID env None s).1.1 ∧ (initID env None s).2 = s) ∧
  initID env' (Some (format_id (BigEndian_Uint64 b))) s'
    = (None, Some (format_id (BigEndian_Uint64 b)),
       set_id (BigEndian_Uint64 b) s').
Proof.
  intros Hrf Hrand Hlen Hb Hcr Hfp Hrf'.
  pose proof (BigEndian_Uint64_range b Hb) as Hi.
  split; [done|]. unfold initID. rewrite Hrf, Hrand, Hcr, Hfp, Hrf'.
  split; [by repeat case_match|]. split; [by intros -> ->|]. split.
  - intros [[e ->]|[e He]]; [by eauto|]. rewrite He.
    destruct (ie_Sync env); by eauto.
  - rewrite TrimSpace_format, hex_fixed_upper_length.
    rewrite decide_False by lia. by rewrite ParseUint16_format.
Qed.

Lemma initID_round_trip_witness :
  let env := mkInitEnv None (inr [1; 2; 3; 4; 5; 6; 7; 8; 9; 10; 11; 12; 13; 14; 15; 16])
               None None None None in
  initID env None (NewStore "/data" true)
    = (None, Some (format_id 72623859790382856),
       set_id 72623859790382856 (NewStore "/data" true)) ∧
  initID env (Some (format_id 72623859790382856)) (NewStore "/data" true)
    = (None, Some (format_id 72623859790382856),
       set_id 72623859790382856 (NewStore "/data" true)).
Proof.
  intros env.
  destruct (initID_round_trip env env
              [1; 2; 3; 4; 5; 6; 7; 8; 9; 10; 11; 12; 13; 14; 15; 16]
              (NewStore "/data" true) (NewStore "/data" true))
    as (_ & _ & H1 & _ & H2); try reflexivity.
  - repeat constructor; lia.
  - split; [apply H1; reflexivity|exact H2].
Defined.

Lemma ParseUint16_go_short (s : string) :
  ∀ acc, 0 ≤ acc → (acc + 1) * 16 ^ Z.of_nat (String.length s) ≤ 2 ^ 64 →
  match ParseUint16_go acc s with
  | inr v => 0 ≤ v < 2 ^ 64
  | inl e => e = ErrSyntax
  end.
Proof.
  induction s as [|a s IH]; intros acc Hacc Hle.
  - simpl in *. lia.
  - cbn [ParseUint16_go]. destruct (hex_value a) as [d|] eqn:Hd; [|done].
    assert (0 ≤ d < 16) as Hdr.
    { revert Hd. unfold hex_value. repeat case_match; intros [= <-]; lia. }
    cbn [String.length] in Hle.
    rewrite Nat2Z.inj_succ, Z.pow_succ_r in Hle by lia.
    assert (0 < 16 ^ Z.of_nat (String.length s)) by (apply Z.pow_pos_nonneg; lia).
    rewrite decide_False by nia. apply IH; [lia|nia].
Qed.

(** X22. When the id file exists, [initID] never writes it.  Because the
    trimmed content is cut to 16 characters, the parse cannot overflow: it
    fails only on a character that is not a hex digit or on an empty
    string, and then [s.id] has been overwritten with 0 while the error is
    returned; when it succeeds [s.id] is a [uint64] and nothing else in the
    store has changed. *)
Theorem initID_existing_file (env : InitEnv) (buf : string) (s : Store) :
  ie_ReadFile env = None →
  (initID env (Some buf) s).1.2 = Some buf ∧
  (∃ v, (initID env (Some buf) s).2 = set_id v s ∧
        match (initID env (Some buf) s).1.1 with
        | None => 0 ≤ v < 2 ^ 64
        | Some _ => v = 0
        end) ∧
  (TrimSpace buf = "" → is_Some (initID env (Some buf) s).1.1).
Proof.
  intros Hrf. unfold initID. rewrite Hrf. cbv zeta.
  set (str := if decide (16 < String.length (TrimSpace buf))%nat
              then substring 0 16 (TrimSpace buf) else TrimSpace buf).
  assert (String.length str ≤ 16)%nat as Hlen.
  { unfold str. case_decide; [apply string_length_substring|lia]. }
  assert (match (ParseUint16 str).2 with
          | None => 0 ≤ (ParseUint16 str).1 < 2 ^ 64
          | Some _ => (ParseUint16 str).1 = 0
          end) as Hparse.
  { unfold ParseUint16. destruct str as [|a str'] eqn:Hstr; [done|].
    pose proof (ParseUint16_go_short (String a str') 0) as Hgo.
    destruct (ParseUint16_go 0 (String a str')) as [e|v].
    - rewrite Hgo; [done|lia|].
      change (2 ^ 64) with (16 ^ 16). rewrite Z.add_0_l, Z.mul_1_l.
      apply Z.pow_le_mono_r; lia.
    - apply Hgo; [lia|].
      change (2 ^ 64) with (16 ^ 16). rewrite Z.add_0_l, Z.mul_1_l.
      apply Z.pow_le_mono_r; lia. }
  split; [by destruct (ParseUint16 str).2|]. split.
  - exists (ParseUint16 str).1. by destruct (ParseUint16 str).2.
  - intros Hempty. unfold str. rewrite Hempty. simpl. by eauto.
Qed.

Lemma initID_existing_file_witness :
  (initID (mkInitEnv None (inl (ErrExternal "rand")) None None None None)
     (Some "12zz") (set_id 7 (NewStore "/data" true))).2
    = set_id 0 (NewStore "/data" true).
Proof.
  destruct (initID_existing_file
              (mkInitEnv None (inl (ErrExternal "rand")) None None None None)
              "12zz" (set_id 7 (NewStore "/data" true)))
    as (_ & (v & Hv & Hm) & _).
  - reflexivity.
  - rewrite Hv. vm_compute in Hm. by rewrite Hm.
Defined.

(** ** Finding the primary or becoming it *)

Lemma is_ErrNoPrimary_true (e : error) : is_ErrNoPrimary e = true → e = ErrNoPrimary.
Proof. by destruct e. Qed.

(** X23. [acquireLeaseOrPrimaryInfo] returns exactly one of a lease, the
    info of the primary and an error.  It asks for the lease only as a
    candidate and only after the leaser has answered [ErrNoPrimary]; it
    returns a lease exactly when that call gives one; when the primary is
    known at the first call, that call is the only one made; and when
    [Acquire] reports that a primary exists, or gives neither lease nor
    error, the result is the one of a second [PrimaryInfo], unwrapped. *)
Theorem acquireLeaseOrPrimaryInfo_result (L : LeaserAnswers) (s : Store) :
  (match ao_lease (acquireLeaseOrPrimaryInfo L s),
         ao_info (acquireLeaseOrPrimaryInfo L s),
         ao_err (acquireLeaseOrPrimaryInfo L s) with
   | Some _, None, None | None, Some _, None | None, None, Some _ => True
   | _, _, _ => False
   end) ∧
  (CallAcquire ∈ ao_calls (acquireLeaseOrPrimaryInfo L s) →
     candidate s = true ∧ la_PrimaryInfo L = inl ErrNoPrimary) ∧
  (∀ l, ao_lease (acquireLeaseOrPrimaryInfo L s) = Some l ↔
     candidate s = true ∧ la_PrimaryInfo L = inl ErrNoPrimary ∧
     la_Acquire L = AcquireLease l) ∧
  (∀ info, la_PrimaryInfo L = inr info →
     acquireLeaseOrPrimaryInfo L s
       = mkAcquireOutcome None (Some info) None [CallPrimaryInfo]) ∧
  (candidate s = true → la_PrimaryInfo L = inl ErrNoPrimary →
   la_Acquire L = AcquireError ErrPrimaryExists ∨ la_Acquire L = AcquireNil →
     ao_calls (acquireLeaseOrPrimaryInfo L s)
       = [CallPrimaryInfo; CallAcquire; CallPrimaryInfo] ∧
     match la_PrimaryInfo_again L with
     | inl e => ao_err (acquireLeaseOrPrimaryInfo L s) = Some e
     | inr info => ao_info (acquireLeaseOrPrimaryInfo L s) = Some info
     end).
Proof.
  unfold acquireLeaseOrPrimaryInfo, refetch_primary.
  split; [|split; [|split; [|split]]].
  - by repeat case_match.
  - destruct (la_PrimaryInfo L) as [err|info]; simpl;
      [|by intros [?|?%elem_of_nil]%elem_of_cons].
    destruct (is_ErrNoPrimary err) eqn:He.
    + apply is_ErrNoPrimary_true in He as ->.
      destruct (candidate s); simpl; [done|].
      by intros [?|?%elem_of_nil]%elem_of_cons.
    + simpl. by intros [?|?%elem_of_nil]%elem_of_cons.
  - intros l. split.
    + destruct (la_PrimaryInfo L) as [err|info]; simpl; [|done].
      destruct (is_ErrNoPrimary err) eqn:He.
      * apply is_ErrNoPrimary_true in He as ->.
        destruct (candidate s); simpl; [|done].
        destruct (la_Acquire L) as [e'|l'|]; simpl.
        -- by repeat case_match.
        -- by intros [= ->].
        -- by repeat case_match.
      * done.
    + by intros (-> & -> & ->).
  - by intros info ->.
  - intros -> -> [->| ->]; simpl; by destruct (la_PrimaryInfo_again L).
Qed.

(** ** Replication as a replica *)






(** X25. The loop over the stream reads frames up to the first end of
    stream, read error, End frame, frame of an unknown type or frame whose
    processing fails, and no further: what it returned on a stream it also
    returns when more frames follow, and while it has not returned it goes
    on with the next frames from the store it has reached.  A clean end
    (EOF or an End frame) returns nil; a DropDB frame for a database the
    replica does not have is skipped; a second Ready frame changes
    nothing. *)
Theorem replica_loop_stops (st rest : list ReadResult) (s : Store) :
  match replica_loop st s with
  | Some (ReplicaReturned err, s') =>
      replica_loop (st ++ rest) s = Some (ReplicaReturned err, s')
  | Some (ReplicaReading, s') =>
      replica_loop (st ++ rest) s = replica_loop rest s' ∧
      replica_loop (st ++ ReadEOF :: rest) s = Some (ReplicaReturned None, s') ∧
      replica_loop (st ++ ReadFrame EndStreamFrame :: rest) s
        = Some (ReplicaReturned None, s') ∧
      (∀ name r, dbs s' !! name = None →
         replica_loop (st ++ ReadFrame (DropDBStreamFrame name r) :: rest) s
           = replica_loop rest s') ∧
      (chan_closed (chans s') (readyCh s') = true →
         replica_loop (st ++ ReadFrame ReadyStreamFrame :: rest) s
           = replica_loop rest s')
  | None => replica_loop (st ++ rest) s = None
  end.
Proof.
  assert (∀ rest',
    match replica_loop st s with
    | Some (ReplicaReturned err, s') =>
        replica_loop (st ++ rest') s = Some (ReplicaReturned err, s')
    | Some (ReplicaReading, s') => replica_loop (st ++ rest') s = replica_loop rest' s'
    | None => replica_loop (st ++ rest') s = None
    end) as Happ.
  { intros rest'. revert s. induction st as [|r st IH]; intros s; [done|].
    rewrite <- app_comm_cons.
    destruct r as [|e|[name src env| | |name removeAll|typ]]; cbn [replica_loop];
      try done.
    - destruct (processLTXStreamFrame env name src s) as [[e|] s1];
        cbn [fst snd]; [done|]. apply IH.
    - destruct (markReady s) as [s1|]; simpl; [apply IH|done].
    - destruct (processDropDBStreamFrame removeAll name s) as [[e|] s1];
        cbn [fst snd]; [done|]. apply IH. }
  pose proof (Happ rest) as H0.
  destruct (replica_loop st s) as [[[err|] s']|]; [done| |done].
  split; [done|]. split; [|split; [|split]].
  - by rewrite (Happ (ReadEOF :: rest)).
  - by rewrite (Happ (ReadFrame EndStreamFrame :: rest)).
  - intros name r Hdb. rewrite (Happ (ReadFrame (DropDBStreamFrame name r) :: rest)).
    cbn [replica_loop]. by rewrite processDropDBStreamFrame_unknown.
  - intros Hc. rewrite (Happ (ReadFrame ReadyStreamFrame :: rest)).
    cbn [replica_loop]. unfold markReady. by rewrite Hc.
Qed.
